(** * Record marking for ONC RPC over a byte stream (RFC 5531, section 11)

    A shallow embedding of the record-marking codec, of the record
    reassembly loop and of the two framing writers of package [sunrpc],
    and the properties of the specification and of the code that
    concern them.

    Conventions.
    - A Go [uint32] is a [Z] in the range [0, 2^32); the bit operations of
      the source are the ones of [Z] ([&^] is [Z.ldiff], [^] is [Z.lxor],
      [>>] is [Z.shiftr]).
    - A byte is a [Byte.byte]; a byte slice is a [list byte].
    - An [io.Reader] is the sequence of bytes it will still deliver
      followed by the condition it reports once they are used up
      ([io.EOF] or an error of the transport).
    - An [io.Writer] is the sequence of bytes it has accepted so far and
      the room that is left before it starts to fail. *)

From Stdlib Require Import String Strings.Byte.
From Stdlib Require Import ZArith List Bool Lia Arith.
From Stdlib Require Import DecimalString.
From Equations Require Import Equations.
From Equations.Prop Require Import Logic.
Import ListNotations.

Local Open Scope Z_scope.

(** ** Machine integers *)

Module U32.

Definition modulus : Z := 2 ^ 32.

(** The predicate "is a value of type uint32". *)
Definition in_range (z : Z) : Prop := 0 <= z < modulus.

(** Go's conversion [uint32(x)] of a non-negative integer. *)
Definition of_int (z : Z) : Z := z mod modulus.

End U32.

(** ** MarkerCodec *)

Definition maxRecordSize : Z := 32 * 1024.

(** [NewRecordMarker]: [marker := size; marker &^= 1 << 31;
    if last { marker ^= 0x80000000 }]. *)
Definition NewRecordMarker (size : Z) (last : bool) : Z :=
  let marker := size in
  let marker := Z.ldiff marker (Z.shiftl 1 31) in
  let marker := if last then Z.lxor marker 0x80000000 else marker in
  marker.

(** [ParseRecordMarker]: [size = marker &^ (1 << 31);
    last = (marker >> 31) == 1]. *)
Definition ParseRecordMarker (marker : Z) : Z * bool :=
  let size := Z.ldiff marker (Z.shiftl 1 31) in
  let last := Z.shiftr marker 31 =? 1 in
  (size, last).

(** ** Errors

    The error values the functions below can return: the two sentinel
    errors of package [io], an error reported by the transport itself,
    and the three errors [ReadRecord] builds. *)

Inductive error : Type :=
| EOF                              (* io.EOF *)
| ErrUnexpectedEOF                 (* io.ErrUnexpectedEOF *)
| ErrTransport (msg : string)      (* any other error of the stream *)
| ErrEmptyRecord                   (* errors.New("A TCP record must ...") *)
| ErrRecordTooLarge (max : Z)      (* fmt.Errorf("Discarded record ...") *)
| ErrShortRecord (n size : Z).     (* fmt.Errorf("Unable to read ...") *)

(** [%v] of an integer. *)
Definition decimal (z : Z) : string := NilZero.string_of_int (Z.to_int z).

(** The method [Error()] of each value. *)
Definition Error (e : error) : string :=
  match e with
  | EOF => "EOF"
  | ErrUnexpectedEOF => "unexpected EOF"
  | ErrTransport msg => msg
  | ErrEmptyRecord => "A TCP record must be at least one byte in size"
  | ErrRecordTooLarge max =>
      "Discarded record exceeding maximum size of " ++ decimal max ++ " bytes"
  | ErrShortRecord n size =>
      "Unable to read entire record. Read " ++ decimal n
        ++ ", expected " ++ decimal size
  end%string.

(** The errors that come from reading the stream, as opposed to the ones
    [ReadRecord] raises about the contents of a marker. *)
Definition from_stream (e : error) : bool :=
  match e with
  | EOF | ErrUnexpectedEOF | ErrTransport _ => true
  | ErrEmptyRecord | ErrRecordTooLarge _ | ErrShortRecord _ _ => false
  end.

(** ** Byte streams *)

(** The value of a byte, [uint32(b)]. *)
Definition byte_val (b : byte) : Z := Z.of_N (Byte.to_N b).

(** The conversion [byte(x)]: the low 8 bits. *)
Definition byte_of (z : Z) : byte :=
  match Byte.of_N (Z.to_N (z mod 256)) with
  | Some b => b
  | None => x00
  end.

(** [binary.BigEndian.Uint32]. *)
Definition BigEndian_Uint32 (b : list byte) : Z :=
  match b with
  | [b0; b1; b2; b3] =>
      Z.lor (byte_val b3)
        (Z.lor (Z.shiftl (byte_val b2) 8)
           (Z.lor (Z.shiftl (byte_val b1) 16) (Z.shiftl (byte_val b0) 24)))
  | _ => 0
  end.

(** [binary.BigEndian.PutUint32]. *)
Definition BigEndian_PutUint32 (v : Z) : list byte :=
  [byte_of (Z.shiftr v 24); byte_of (Z.shiftr v 16);
   byte_of (Z.shiftr v 8); byte_of v].

(** How a stream ends: closed by the peer, or broken with an error of
    the transport. *)
Inductive ending : Type :=
| Closed
| Broken (msg : string).

(** The error a read reports at the end of the stream. *)
Definition ending_error (c : ending) : error :=
  match c with
  | Closed => EOF
  | Broken msg => ErrTransport msg
  end.

(** A reader: the bytes it still delivers, in order, and how it ends once
    they are exhausted. *)
Record Reader : Type := mkReader { pending : list byte; closing : ending }.

Definition advance (n : nat) (r : Reader) : Reader :=
  {| pending := skipn n (pending r); closing := closing r |}.

(** [io.ReadFull(r, buf)] with [len(buf) = n]: the bytes read, the error,
    the reader afterwards.  Fewer than [n] bytes give [io.EOF] when none
    was read, [io.ErrUnexpectedEOF] when the stream ended after some, and
    the stream's own error otherwise. *)
Definition ReadFull (r : Reader) (n : nat) : list byte * option error * Reader :=
  let got := firstn n (pending r) in
  let err :=
    if (n <=? length (pending r))%nat then None
    else Some (match got, closing r with
               | _ :: _, Closed => ErrUnexpectedEOF
               | _, c => ending_error c
               end) in
  (got, err, advance n r).

(** [binary.Read(r, binary.BigEndian, &marker)] for [marker] a [uint32]
    that holds [0] before the call. *)
Definition binary_Read (r : Reader) : Z * option error * Reader :=
  let '(bs, err, r) := ReadFull r 4 in
  match err with
  | Some e => (0, Some e, r)
  | None => (BigEndian_Uint32 bs, None, r)
  end.

(** [io.CopyN(dst, src, n)] for a destination that accepts every write (a
    [bytes.Buffer], [ioutil.Discard]): the bytes moved to [dst], their
    number, the error, the reader afterwards.  When the source runs out
    before [n] bytes the error is the source's, [io.EOF] at end of
    stream. *)
Definition CopyN (src : Reader) (n : Z) : list byte * Z * option error * Reader :=
  let got := firstn (Z.to_nat n) (pending src) in
  let written := Z.of_nat (length got) in
  let err := if written =? n then None
             else Some (ending_error (closing src)) in
  (got, written, err, advance (Z.to_nat n) src).

(** A writer: the bytes it has accepted, the number of bytes it still
    accepts ([None] for no limit, as a [bytes.Buffer]) and the message of
    the error it reports for what does not fit. *)
Record Writer : Type :=
  mkWriter { sent : list byte; room : option nat; broken : string }.

(** The method [Write(p)]: the number of bytes accepted, the error, the
    writer afterwards. *)
Definition Write (w : Writer) (p : list byte) : Z * option error * Writer :=
  match room w with
  | None =>
      (Z.of_nat (length p), None,
       {| sent := sent w ++ p; room := None; broken := broken w |})
  | Some k =>
      if (length p <=? k)%nat then
        (Z.of_nat (length p), None,
         {| sent := sent w ++ p; room := Some (k - length p)%nat;
            broken := broken w |})
      else
        (Z.of_nat k, Some (ErrTransport (broken w)),
         {| sent := sent w ++ firstn k p; room := Some 0%nat;
            broken := broken w |})
  end.

(** The writer accepts [n] more bytes. *)
Definition has_room (w : Writer) (n : nat) : Prop :=
  match room w with
  | None => True
  | Some k => (n <= k)%nat
  end.

(** What is left of the room after [n] bytes. *)
Definition room_after (w : Writer) (n : nat) : option nat :=
  option_map (fun k => (k - n)%nat) (room w).

(** [binary.Write(w, binary.BigEndian, record)] for a [uint32]. *)
Definition binary_Write (w : Writer) (v : Z) : option error * Writer :=
  let '(_, err, w) := Write w (BigEndian_PutUint32 v) in (err, w).

(** ** MarkerIO *)

(** [ReadRecordMarker]. *)
Definition ReadRecordMarker (r : Reader) : Z * bool * option error * Reader :=
  let '(marker, err, r) := binary_Read r in
  match err with
  | Some err => (0, true, Some err, r)
  | None =>
      let '(size, last) := ParseRecordMarker marker in
      (size, last, None, r)
  end.

(** [WriteRecordMarker]. *)
Definition WriteRecordMarker (w : Writer) (size : Z) (last : bool)
  : option error * Writer :=
  let record := NewRecordMarker (U32.of_int size) last in
  let '(err, w) := binary_Write w record in
  match err with
  | Some err => (Some err, w)
  | None => (None, w)
  end.

(** ** RecordAssembler *)

(** What [ReadRecord] returns: [(&buf, nil)] or [(nil, err)]. *)
Inductive result : Type :=
| Ok (buf : list byte)
| Fail (err : error).

(** How one pass through the body of the [for] loop ends: with a
    [return] (for [break], the [return &buf, nil] that follows the loop),
    or at the closing brace with the buffer grown. *)
Inductive flow : Type :=
| Return (res : result)
| Continue (buf : list byte).

(** The body of the loop of [ReadRecord], from the read of the marker to
    the test of [last]. *)
Definition ReadRecord_body (r : Reader) (buf : list byte) : flow * Reader :=
  let '(size, last, err, r) := ReadRecordMarker r in
  match err with
  | Some err => (Return (Fail err), r)
  | None =>
      if size <? 1 then (Return (Fail ErrEmptyRecord), r)
      else if size >=? maxRecordSize then
        let '(_, _, _, r) := CopyN r size in
        (Return (Fail (ErrRecordTooLarge maxRecordSize)), r)
      else
        let '(got, n, err, r) := CopyN r size in
        let buf := buf ++ got in
        match err with
        | Some _ => (Return (Fail (ErrShortRecord n size)), r)
        | None =>
            if last then (Return (Ok buf), r)
            else (Continue buf, r)
        end
  end.

(** The [for] loop of [ReadRecord], entered with reader [r] and buffer
    [buf]. *)
Equations ReadRecord_loop (r : Reader) (buf : list byte) : result * Reader
  by wf (length (pending r)) lt :=
ReadRecord_loop r buf with inspect (ReadRecord_body r buf) := {
  | exist _ (Return res, r') _ => (res, r')
  | exist _ (Continue buf', r') H => ReadRecord_loop r' buf' }.
Next Obligation.
  (* a pass that reaches the closing brace has read a marker and a
     fragment of at least one byte *)
  revert H.
  unfold ReadRecord_body, ReadRecordMarker, binary_Read, ReadFull, CopyN.
  destruct (4 <=? length (pending r))%nat eqn:H4; [|discriminate].
  apply Nat.leb_le in H4.
  destruct (ParseRecordMarker _) as [size last].
  destruct (size <? 1); [discriminate|].
  destruct (size >=? maxRecordSize); [discriminate|].
  destruct (_ =? size); [|discriminate].
  destruct last; [discriminate|].
  intros [= _ <-]. unfold advance; cbn [pending].
  rewrite !length_skipn. lia.
Qed.

(** [ReadRecord]: [var buf bytes.Buffer] and the loop. *)
Definition ReadRecord (r : Reader) : result * Reader :=
  ReadRecord_loop r [].

(** ** ReplyFramer *)

(** [WriteTCPReplyMessage]. *)
Definition WriteTCPReplyMessage (w : Writer) (reply : list byte)
  : option error * Writer :=
  let '(err, w) := WriteRecordMarker w (Z.of_nat (length reply)) true in
  match err with
  | Some err => (Some err, w)
  | None =>
      let '(_, err, w) := Write w reply in
      match err with
      | Some err => (Some err, w)
      | None => (None, w)
      end
  end.

(** ** The deprecated call writer

    [WriteCall] marshals the call header and the arguments with package
    [xdr] into a local buffer and sends the buffer, after a record marker
    unless the writer is a UDP connection.  Package [xdr] and
    [NewProcedureCall] are not part of these files: the values that can
    be marshalled, the marshaller and the constructor of the header are
    parameters. *)

(** What [WriteCall] returns as error: the error of [xdr.Marshal], or the
    error of a write. *)
Inductive call_error : Type :=
| ErrMarshal (msg : string)
| ErrWrite (e : error).

Section Call.

(** The values of type [interface{}] handed to [xdr.Marshal]. *)
Variable value : Type.

(** [xdr.Marshal(&buf, v)] on a [bytes.Buffer]: the bytes appended to
    the buffer, or the message of the error.  What a failed call leaves
    in the buffer is never looked at. *)
Variable Marshal : value -> list byte + string.

(** The header of a call to procedure [proc] of [program], [version]. *)
Variable NewProcedureCall : Z -> Z -> Z -> value.

(** [WriteCall]; [udp] tells whether the dynamic type of [w] is
    [*net.UDPConn]. *)
Definition WriteCall (udp : bool) (w : Writer)
  (program version proc : Z) (args : value) : option call_error * Writer :=
  let buf := [] in
  match Marshal (NewProcedureCall program version proc) with
  | inr msg => (Some (ErrMarshal msg), w)
  | inl header =>
      let buf := buf ++ header in
      match Marshal args with
      | inr msg => (Some (ErrMarshal msg), w)
      | inl body =>
          let buf := buf ++ body in
          let '(err, w) :=
            if negb udp then WriteRecordMarker w (Z.of_nat (length buf)) true
            else (None, w) in
          match err with
          | Some err => (Some (ErrWrite err), w)
          | None =>
              let '(_, err, w) := Write w buf in
              match err with
              | Some err => (Some (ErrWrite err), w)
              | None => (None, w)
              end
          end
      end
  end.

End Call.

Arguments WriteCall {value} Marshal NewProcedureCall udp w program version proc args.

(** ** Fragments on the wire

    The vocabulary of the statements below: a fragment is a marker and
    the payload that follows it. *)

Record Fragment : Type := mkFragment { marker : Z; payload : list byte }.

Definition frag_size (f : Fragment) : Z := fst (ParseRecordMarker (marker f)).
Definition frag_last (f : Fragment) : bool := snd (ParseRecordMarker (marker f)).

(** The bytes of a fragment in the stream: the marker, big-endian, then
    the payload. *)
Definition on_wire (f : Fragment) : list byte :=
  BigEndian_PutUint32 (marker f) ++ payload f.

(** The marker is a 32-bit value and announces the payload's length. *)
Definition well_formed (f : Fragment) : Prop :=
  U32.in_range (marker f) /\ frag_size f = Z.of_nat (length (payload f)).

(** The length passes both tests of [ReadRecord]. *)
Definition accepted (f : Fragment) : Prop :=
  1 <= frag_size f < maxRecordSize.

(** The bytes of a sequence of fragments, and their payloads in order. *)
Definition stream_of (fs : list Fragment) : list byte := concat (map on_wire fs).
Definition payloads (fs : list Fragment) : list byte := concat (map payload fs).

(** The fragments that precede the one that ends the read: accepted and
    not flagged as last. *)
Definition leading (fs : list Fragment) : Prop :=
  Forall (fun f => well_formed f /\ accepted f /\ frag_last f = false) fs.

(** ** Sample streams *)

(** The stream of the specification's example: [Encode(3,false)], "abc",
    [Encode(2,true)], "de". *)
Definition abc : Fragment :=
  mkFragment (NewRecordMarker 3 false) ["a"; "b"; "c"]%byte.
Definition de : Fragment :=
  mkFragment (NewRecordMarker 2 true) ["d"; "e"]%byte.

(** The stream of the specification's oversize example: [Encode(40000,true)]
    followed by 40000 bytes. *)
Definition oversize : Fragment :=
  mkFragment (NewRecordMarker 40000 true) (repeat x00 (Z.to_nat 40000)).

(** The stream of the specification's single-fragment example:
    [Encode(5,true)] followed by "hello". *)
Definition hello : Fragment :=
  mkFragment (NewRecordMarker 5 true) ["h"; "e"; "l"; "l"; "o"]%byte.

(** A [bytes.Buffer] to write to, empty. *)
Definition empty_buffer : Writer := mkWriter [] None "".

(** A connection that accepts 6 more bytes and then fails. *)
Definition tight_conn : Writer := mkWriter [] (Some 6%nat) "broken pipe".

(** A stand-in for package [xdr] on byte strings: a value is the bytes
    of its encoding, and the empty value cannot be marshalled. *)
Definition sample_Marshal (v : list byte) : list byte + string :=
  match v with
  | [] => inr "xdr: nothing to encode"%string
  | _ => inl v
  end.

(** A stand-in for [NewProcedureCall]: the three numbers, one byte each. *)
Definition sample_header (program version proc : Z) : list byte :=
  [byte_of program; byte_of version; byte_of proc].

(** * Properties *)

(** ** Arithmetic reading of the bit operations *)

(** Clearing bit 31 of a uint32 keeps its low 31 bits. *)
Lemma ldiff_top_bit (m : Z) :
  U32.in_range m -> Z.ldiff m (Z.shiftl 1 31) = m mod 2 ^ 31.
Proof.
  intros [Hlo Hhi]. unfold U32.modulus in Hhi.
  apply Z.bits_inj'. intros i Hi.
  rewrite Z.ldiff_spec, Z.shiftl_1_l, Z.pow2_bits_eqb by lia.
  destruct (Z.eqb_spec 31 i) as [<- | Hne].
  - rewrite Z.mod_pow2_bits_high by lia. apply andb_false_r.
  - rewrite andb_true_r.
    destruct (Z.ltb_spec i 31).
    + now rewrite Z.mod_pow2_bits_low by lia.
    + rewrite Z.mod_pow2_bits_high by lia.
      apply Z.testbit_false; [lia|].
      rewrite Z.div_small; [reflexivity|].
      split; [lia|].
      apply Z.lt_le_trans with (2 ^ 32); [lia|].
      apply Z.pow_le_mono_r; lia.
Qed.

(** Flipping bit 31 of a value below [2^31] adds [2^31]. *)
Lemma lxor_top_bit (x : Z) :
  0 <= x < 2 ^ 31 -> Z.lxor x 0x80000000 = x + 2 ^ 31.
Proof.
  intros Hx. change 0x80000000 with (2 ^ 31).
  symmetry. apply Z.add_nocarry_lxor.
  apply Z.bits_inj'. intros i Hi.
  rewrite Z.land_spec, Z.bits_0, Z.pow2_bits_eqb by lia.
  destruct (Z.eqb_spec 31 i) as [<- | Hne]; [|apply andb_false_r].
  rewrite andb_true_r. apply Z.testbit_false; [lia|].
  now rewrite Z.div_small.
Qed.

Lemma NewRecordMarker_arith (size : Z) (last : bool) :
  U32.in_range size ->
  NewRecordMarker size last =
  size mod 2 ^ 31 + (if last then 2 ^ 31 else 0).
Proof.
  intros Hs. unfold NewRecordMarker.
  rewrite (ldiff_top_bit size Hs).
  destruct last; [|lia].
  apply lxor_top_bit. apply Z.mod_pos_bound. lia.
Qed.

Lemma ParseRecordMarker_arith (marker : Z) :
  U32.in_range marker ->
  ParseRecordMarker marker = (marker mod 2 ^ 31, marker / 2 ^ 31 =? 1).
Proof.
  intros Hm. unfold ParseRecordMarker.
  now rewrite (ldiff_top_bit marker Hm), Z.shiftr_div_pow2 by lia.
Qed.

(** A marker is a uint32 whatever the size it was built from. *)
Lemma NewRecordMarker_in_range (size : Z) (last : bool) :
  U32.in_range size -> U32.in_range (NewRecordMarker size last).
Proof.
  intros Hs. rewrite NewRecordMarker_arith by assumption.
  unfold U32.in_range, U32.modulus in *.
  pose proof (Z.mod_pos_bound size (2 ^ 31) ltac:(lia)).
  destruct last; lia.
Qed.

(** ** MarkerCodec *)

Lemma ParseRecordMarker_NewRecordMarker (size : Z) (last : bool) :
  0 <= size < 2 ^ 31 ->
  ParseRecordMarker (NewRecordMarker size last) = (size, last).
Proof.
  intros Hl.
  assert (Hr : U32.in_range size) by (unfold U32.in_range, U32.modulus; lia).
  rewrite ParseRecordMarker_arith by now apply NewRecordMarker_in_range.
  rewrite NewRecordMarker_arith by assumption.
  rewrite (Z.mod_small size) by lia.
  destruct last.
  - f_equal.
    + rewrite <- (Z.mul_1_l (2 ^ 31)) at 1.
      rewrite Z.mod_add by lia. apply Z.mod_small; lia.
    + rewrite <- (Z.mul_1_l (2 ^ 31)) at 1.
      rewrite Z.div_add by lia. rewrite Z.div_small by lia. reflexivity.
  - rewrite Z.add_0_r. f_equal.
    + apply Z.mod_small; lia.
    + rewrite Z.div_small by lia. reflexivity.
Qed.

(** C6. Round trip: for every [size] in [[0, 2^31 - 1]] and every
    [isLast], decoding the marker encoded from [(size, isLast)] gives
    back exactly [(size, isLast)]. *)
Theorem C6_decode_encode (size : Z) (isLast : bool) :
  0 <= size <= 2 ^ 31 - 1 ->
  ParseRecordMarker (NewRecordMarker size isLast) = (size, isLast).
Proof.
  intros Hl. apply ParseRecordMarker_NewRecordMarker. lia.
Qed.

Lemma C6_decode_encode_witness :
  0 <= 5 <= 2 ^ 31 - 1 /\
  ParseRecordMarker (NewRecordMarker 5 true) = (5, true).
Proof. split; [lia | apply (C6_decode_encode 5 true); lia]. Defined.

(** C4. For every 32-bit [size], also one of [2^31] or more, and every
    [isLast]: bit 31 of the encoded marker is [isLast], the length field
    of the marker stays below [2^31], and decoding the marker reports
    [isLast] unchanged. *)
Theorem C4_flag_bit_is_last (size : Z) (isLast : bool) :
  U32.in_range size ->
  Z.testbit (NewRecordMarker size isLast) 31 = isLast /\
  0 <= fst (ParseRecordMarker (NewRecordMarker size isLast)) < 2 ^ 31 /\
  snd (ParseRecordMarker (NewRecordMarker size isLast)) = isLast.
Proof.
  intros Hs.
  pose proof (NewRecordMarker_in_range size isLast Hs) as Hm.
  rewrite (ParseRecordMarker_arith _ Hm). cbn [fst snd].
  pose proof (Z.mod_pos_bound (NewRecordMarker size isLast) (2 ^ 31)
                ltac:(lia)) as Hfield.
  assert (Hq : NewRecordMarker size isLast / 2 ^ 31 = if isLast then 1 else 0).
  { rewrite NewRecordMarker_arith by assumption.
    pose proof (Z.mod_pos_bound size (2 ^ 31) ltac:(lia)).
    destruct isLast.
    - replace (size mod 2 ^ 31 + 2 ^ 31)
        with (size mod 2 ^ 31 + 1 * 2 ^ 31) by lia.
      rewrite Z.div_add by lia. now rewrite Z.div_small by lia.
    - rewrite Z.add_0_r. now apply Z.div_small. }
  repeat split; try lia.
  - destruct isLast.
    + apply Z.testbit_true; [lia | now rewrite Hq].
    + apply Z.testbit_false; [lia | now rewrite Hq].
  - rewrite Hq. now destruct isLast.
Qed.

Lemma C4_flag_bit_is_last_witness :
  U32.in_range 0xFFFFFFFF /\
  Z.testbit (NewRecordMarker 0xFFFFFFFF false) 31 = false /\
  0 <= fst (ParseRecordMarker (NewRecordMarker 0xFFFFFFFF false)) < 2 ^ 31 /\
  snd (ParseRecordMarker (NewRecordMarker 0xFFFFFFFF false)) = false.
Proof.
  split; [unfold U32.in_range, U32.modulus; lia|].
  apply (C4_flag_bit_is_last 0xFFFFFFFF false).
  unfold U32.in_range, U32.modulus; lia.
Defined.

(** C9. Reverse round trip: for every 32-bit marker [m], encoding the
    pair that [m] decodes to gives [m] again. *)
Theorem C9_encode_decode (m : Z) :
  U32.in_range m ->
  NewRecordMarker (fst (ParseRecordMarker m)) (snd (ParseRecordMarker m)) = m.
Proof.
  intros Hm. rewrite (ParseRecordMarker_arith m Hm). cbn [fst snd].
  pose proof Hm as [Hlo Hhi]. unfold U32.modulus in Hhi.
  pose proof (Z.mod_pos_bound m (2 ^ 31) ltac:(lia)) as Hfield.
  rewrite NewRecordMarker_arith
    by (unfold U32.in_range, U32.modulus; lia).
  rewrite Z.mod_mod by lia.
  pose proof (Z.div_mod m (2 ^ 31) ltac:(lia)) as Hdm.
  assert (Hq : 0 <= m / 2 ^ 31 < 2).
  { split; [apply Z.div_pos; lia|].
    apply Z.div_lt_upper_bound; lia. }
  destruct (Z.eqb_spec (m / 2 ^ 31) 1) as [H1 | H1]; nia.
Qed.

Lemma C9_encode_decode_witness :
  U32.in_range 0x80000005 /\
  NewRecordMarker (fst (ParseRecordMarker 0x80000005))
                  (snd (ParseRecordMarker 0x80000005)) = 0x80000005.
Proof.
  split; [unfold U32.in_range, U32.modulus; lia|].
  apply (C9_encode_decode 0x80000005).
  unfold U32.in_range, U32.modulus; lia.
Defined.

(** ** Bytes and big-endian words *)

Lemma byte_val_of (z : Z) : byte_val (byte_of z) = z mod 256.
Proof.
  unfold byte_val, byte_of.
  pose proof (Z.mod_pos_bound z 256 ltac:(lia)) as Hb.
  destruct (Byte.of_N (Z.to_N (z mod 256))) as [b|] eqn:Hof.
  - apply Byte.to_of_N in Hof. rewrite Hof. lia.
  - apply Byte.of_N_None_iff in Hof. lia.
Qed.

(** Bit [i] of the byte taken at offset [k] and put back at offset [k]. *)
Lemma byte_field_bits (v k i : Z) :
  0 <= k -> 0 <= i ->
  Z.testbit (Z.shiftl (byte_val (byte_of (Z.shiftr v k))) k) i =
  (k <=? i) && (i <? k + 8) && Z.testbit v i.
Proof.
  intros Hk Hi. rewrite byte_val_of. change 256 with (2 ^ 8).
  rewrite Z.shiftl_spec by assumption.
  destruct (Z.leb_spec k i) as [Hki | Hki]; cbn [andb].
  - rewrite Z.testbit_mod_pow2 by lia.
    rewrite Z.shiftr_spec by lia.
    replace (i - k + k) with i by lia.
    f_equal. destruct (Z.ltb_spec (i - k) 8), (Z.ltb_spec i (k + 8));
      reflexivity || lia.
  - apply Z.testbit_neg_r. lia.
Qed.

Lemma BigEndian_Uint32_PutUint32 (v : Z) :
  U32.in_range v -> BigEndian_Uint32 (BigEndian_PutUint32 v) = v.
Proof.
  intros [Hlo Hhi]. unfold U32.modulus in Hhi.
  unfold BigEndian_PutUint32, BigEndian_Uint32.
  replace (byte_val (byte_of v))
    with (Z.shiftl (byte_val (byte_of (Z.shiftr v 0))) 0)
    by now rewrite Z.shiftr_0_r, Z.shiftl_0_r.
  apply Z.bits_inj'. intros i Hi.
  rewrite !Z.lor_spec, !byte_field_bits by lia.
  destruct (Z.ltb_spec i 32) as [Hi32 | Hi32].
  - destruct (Z.testbit v i); [|now rewrite !andb_false_r].
    rewrite !andb_true_r.
    destruct (Z.leb_spec 0 i), (Z.ltb_spec i (0 + 8)),
      (Z.leb_spec 8 i), (Z.ltb_spec i (8 + 8)),
      (Z.leb_spec 16 i), (Z.ltb_spec i (16 + 8)),
      (Z.leb_spec 24 i), (Z.ltb_spec i (24 + 8));
      reflexivity || lia.
  - assert (Hbit : Z.testbit v i = false).
    { apply Z.testbit_false; [lia|].
      rewrite Z.div_small; [reflexivity|].
      split; [lia|].
      apply Z.lt_le_trans with (2 ^ 32); [lia|].
      apply Z.pow_le_mono_r; lia. }
    rewrite Hbit. now rewrite !andb_false_r.
Qed.

Lemma BigEndian_PutUint32_length (v : Z) :
  length (BigEndian_PutUint32 v) = 4%nat.
Proof. reflexivity. Qed.

(** ** Reading from a stream *)

Lemma firstn_exact {A} (l rest : list A) : firstn (length l) (l ++ rest) = l.
Proof.
  rewrite firstn_app, Nat.sub_diag, firstn_all. cbn. apply app_nil_r.
Qed.

Lemma skipn_exact {A} (l rest : list A) : skipn (length l) (l ++ rest) = rest.
Proof.
  rewrite skipn_app, Nat.sub_diag, skipn_all. reflexivity.
Qed.

Lemma ReadFull_available (bs rest : list byte) (c : ending) :
  ReadFull (mkReader (bs ++ rest) c) (length bs) = (bs, None, mkReader rest c).
Proof.
  unfold ReadFull, advance; cbn [pending closing].
  rewrite firstn_exact, skipn_exact.
  replace (length bs <=? length (bs ++ rest))%nat with true; [reflexivity|].
  symmetry. apply Nat.leb_le. rewrite length_app. lia.
Qed.

Lemma binary_Read_word (v : Z) (rest : list byte) (c : ending) :
  U32.in_range v ->
  binary_Read (mkReader (BigEndian_PutUint32 v ++ rest) c) =
  (v, None, mkReader rest c).
Proof.
  intros Hv. unfold binary_Read.
  change 4%nat with (length (BigEndian_PutUint32 v)).
  rewrite ReadFull_available.
  now rewrite BigEndian_Uint32_PutUint32.
Qed.

(** A marker in the stream is read back as the pair it decodes to. *)
Lemma ReadRecordMarker_word (m : Z) (rest : list byte) (c : ending) :
  U32.in_range m ->
  ReadRecordMarker (mkReader (BigEndian_PutUint32 m ++ rest) c) =
  (fst (ParseRecordMarker m), snd (ParseRecordMarker m), None,
   mkReader rest c).
Proof.
  intros Hm. unfold ReadRecordMarker.
  rewrite binary_Read_word by assumption.
  now destruct (ParseRecordMarker m).
Qed.

(** The marker read fails exactly when fewer than 4 bytes are left. *)
Lemma ReadRecordMarker_enough (r : Reader) :
  (4 <= length (pending r))%nat ->
  snd (fst (ReadRecordMarker r)) = None.
Proof.
  intros H4. unfold ReadRecordMarker, binary_Read, ReadFull.
  apply Nat.leb_le in H4. rewrite H4.
  now destruct (ParseRecordMarker _).
Qed.

Lemma ReadRecordMarker_short (r : Reader) :
  (length (pending r) < 4)%nat ->
  ReadRecordMarker r =
  (0, true,
   Some (match pending r, closing r with
         | _ :: _, Closed => ErrUnexpectedEOF
         | _, c => ending_error c
         end),
   mkReader [] (closing r)).
Proof.
  intros H4. unfold ReadRecordMarker, binary_Read, ReadFull, advance.
  replace (4 <=? length (pending r))%nat with false
    by (symmetry; apply Nat.leb_gt; lia).
  rewrite skipn_all2 by lia.
  rewrite firstn_all2 by lia. reflexivity.
Qed.

Lemma CopyN_available (p rest : list byte) (c : ending) :
  CopyN (mkReader (p ++ rest) c) (Z.of_nat (length p)) =
  (p, Z.of_nat (length p), None, mkReader rest c).
Proof.
  unfold CopyN, advance; cbn [pending closing].
  rewrite Nat2Z.id, firstn_exact, skipn_exact, Z.eqb_refl. reflexivity.
Qed.

Lemma CopyN_short (p : list byte) (c : ending) (n : Z) :
  Z.of_nat (length p) < n ->
  CopyN (mkReader p c) n =
  (p, Z.of_nat (length p), Some (ending_error c), mkReader [] c).
Proof.
  intros Hn. unfold CopyN, advance; cbn [pending closing].
  rewrite firstn_all2, skipn_all2 by lia.
  replace (Z.of_nat (length p) =? n) with false
    by (symmetry; apply Z.eqb_neq; lia).
  reflexivity.
Qed.

(** ** The reassembly loop *)

(** One unfolding of the loop. *)
Lemma ReadRecord_loop_step (r : Reader) (buf : list byte) :
  ReadRecord_loop r buf =
  match ReadRecord_body r buf with
  | (Return res, r') => (res, r')
  | (Continue buf', r') => ReadRecord_loop r' buf'
  end.
Proof.
  funelim (ReadRecord_loop r buf);
    match goal with
    | E : ReadRecord_body _ _ = _ |- _ => now rewrite E
    end.
Qed.

(** The body of the loop once the marker [m] has been read: the two
    tests on the size and the copy, on the bytes after the marker. *)
Lemma ReadRecord_body_marker (m : Z) (tail buf : list byte) (c : ending) :
  U32.in_range m ->
  ReadRecord_body (mkReader (BigEndian_PutUint32 m ++ tail) c) buf =
  let size := fst (ParseRecordMarker m) in
  let last := snd (ParseRecordMarker m) in
  if size <? 1 then (Return (Fail ErrEmptyRecord), mkReader tail c)
  else if size >=? maxRecordSize then
    (Return (Fail (ErrRecordTooLarge maxRecordSize)),
     advance (Z.to_nat size) (mkReader tail c))
  else
    let '(got, n, err, r) := CopyN (mkReader tail c) size in
    match err with
    | Some _ => (Return (Fail (ErrShortRecord n size)), r)
    | None => if last then (Return (Ok (buf ++ got)), r)
              else (Continue (buf ++ got), r)
    end.
Proof.
  intros Hm. unfold ReadRecord_body.
  rewrite ReadRecordMarker_word by assumption. reflexivity.
Qed.

Lemma size_tests_pass (size : Z) :
  1 <= size < maxRecordSize ->
  (size <? 1) = false /\ (size >=? maxRecordSize) = false.
Proof.
  intros Hs. split.
  - apply Z.ltb_ge. lia.
  - rewrite Z.geb_leb. apply Z.leb_gt. lia.
Qed.

(** An accepted fragment is appended to the buffer; the loop goes on
    unless the fragment is the last one. *)
Lemma ReadRecord_body_accepted (f : Fragment) (rest buf : list byte) (c : ending) :
  well_formed f -> accepted f ->
  ReadRecord_body (mkReader (on_wire f ++ rest) c) buf =
  (if frag_last f then Return (Ok (buf ++ payload f))
   else Continue (buf ++ payload f),
   mkReader rest c).
Proof.
  intros [Hm Hsz] Hacc. unfold on_wire. rewrite <- app_assoc.
  rewrite ReadRecord_body_marker by assumption. cbv zeta.
  unfold accepted, frag_size, frag_last in *.
  destruct (size_tests_pass _ Hacc) as [-> ->].
  rewrite Hsz, CopyN_available.
  now destruct (snd (ParseRecordMarker (marker f))).
Qed.

(** The loop absorbs the leading fragments one by one. *)
Lemma ReadRecord_loop_leading (fs : list Fragment) (s buf : list byte) (c : ending) :
  leading fs ->
  ReadRecord_loop (mkReader (stream_of fs ++ s) c) buf =
  ReadRecord_loop (mkReader s c) (buf ++ payloads fs).
Proof.
  intros Hfs. revert buf.
  induction Hfs as [| f fs (Hwf & Hacc & Hlast) _ IH]; intros buf.
  - cbn. now rewrite app_nil_r.
  - unfold stream_of, payloads in *. cbn [map concat].
    rewrite <- app_assoc, ReadRecord_loop_step.
    rewrite ReadRecord_body_accepted, Hlast by assumption.
    rewrite IH. now rewrite app_assoc.
Qed.

Lemma stream_of_snoc (fs : list Fragment) (f : Fragment) :
  stream_of (fs ++ [f]) = stream_of fs ++ on_wire f.
Proof.
  unfold stream_of. rewrite map_app, concat_app. cbn. now rewrite app_nil_r.
Qed.

Lemma payloads_snoc (fs : list Fragment) (f : Fragment) :
  payloads (fs ++ [f]) = payloads fs ++ payload f.
Proof.
  unfold payloads. rewrite map_app, concat_app. cbn. now rewrite app_nil_r.
Qed.

(** C2. A stream that begins with fragments whose markers announce
    lengths from 1 to [maxRecordSize - 1], each followed by that many
    payload bytes, the final one flagged as last and no earlier one:
    [ReadRecord] returns the payloads concatenated in stream order, and
    leaves the reader right after the final fragment. *)
Theorem C2_fragments_concatenated
  (init : list Fragment) (final : Fragment) (rest : list byte) (c : ending) :
  leading init ->
  well_formed final -> accepted final -> frag_last final = true ->
  ReadRecord (mkReader (stream_of (init ++ [final]) ++ rest) c) =
  (Ok (payloads (init ++ [final])), mkReader rest c).
Proof.
  intros Hinit Hwf Hacc Hlast. unfold ReadRecord.
  rewrite stream_of_snoc, payloads_snoc, <- app_assoc.
  rewrite ReadRecord_loop_leading by assumption.
  rewrite ReadRecord_loop_step.
  rewrite ReadRecord_body_accepted, Hlast by assumption.
  reflexivity.
Qed.

Lemma C2_fragments_concatenated_witness :
  leading [abc] /\ well_formed de /\ accepted de /\ frag_last de = true /\
  ReadRecord (mkReader (stream_of ([abc] ++ [de]) ++ []) Closed) =
  (Ok ["a"; "b"; "c"; "d"; "e"]%byte, mkReader [] Closed).
Proof.
  assert (Habc : leading [abc]).
  { repeat constructor; vm_compute; congruence. }
  assert (Hwf : well_formed de) by (repeat constructor; vm_compute; congruence).
  assert (Hacc : accepted de) by (repeat constructor; vm_compute; congruence).
  assert (Hlast : frag_last de = true) by reflexivity.
  split; [exact Habc|]. split; [exact Hwf|]. split; [exact Hacc|].
  split; [exact Hlast|].
  exact (C2_fragments_concatenated [abc] de [] Closed Habc Hwf Hacc Hlast).
Defined.

(** ** Rejected fragments *)

(** A marker that announces no byte ends the read right after the
    marker, whatever came before and whatever its flag. *)
Lemma ReadRecord_loop_empty (m : Z) (rest buf : list byte) (c : ending) :
  U32.in_range m -> fst (ParseRecordMarker m) < 1 ->
  ReadRecord_loop (mkReader (BigEndian_PutUint32 m ++ rest) c) buf =
  (Fail ErrEmptyRecord, mkReader rest c).
Proof.
  intros Hm Hsz. rewrite ReadRecord_loop_step.
  rewrite ReadRecord_body_marker by assumption. cbv zeta.
  apply Z.ltb_lt in Hsz. now rewrite Hsz.
Qed.

(** C7. A fragment whose decoded length is below 1, after any number of
    accepted fragments and with either value of its flag, makes
    [ReadRecord] fail with the zero-length error; the reader is left
    right after the 4 bytes of the marker. *)
Theorem C7_empty_fragment_rejected
  (init : list Fragment) (m : Z) (rest : list byte) (c : ending) :
  leading init ->
  U32.in_range m -> fst (ParseRecordMarker m) < 1 ->
  ReadRecord (mkReader (stream_of init ++ BigEndian_PutUint32 m ++ rest) c) =
  (Fail ErrEmptyRecord, mkReader rest c).
Proof.
  intros Hinit Hm Hsz. unfold ReadRecord.
  rewrite ReadRecord_loop_leading by assumption.
  now apply ReadRecord_loop_empty.
Qed.

Lemma C7_empty_fragment_rejected_witness :
  leading [abc] /\
  U32.in_range (NewRecordMarker 0 true) /\
  fst (ParseRecordMarker (NewRecordMarker 0 true)) < 1 /\
  snd (ParseRecordMarker (NewRecordMarker 0 true)) = true /\
  ReadRecord
    (mkReader (stream_of [abc] ++ BigEndian_PutUint32 (NewRecordMarker 0 true)
                 ++ ["x"; "y"]%byte) Closed) =
  (Fail ErrEmptyRecord, mkReader ["x"; "y"]%byte Closed).
Proof.
  assert (Habc : leading [abc]).
  { repeat constructor; vm_compute; congruence. }
  assert (Hm : U32.in_range (NewRecordMarker 0 true)).
  { split; vm_compute; congruence. }
  assert (Hsz : fst (ParseRecordMarker (NewRecordMarker 0 true)) < 1).
  { vm_compute. reflexivity. }
  split; [exact Habc|]. split; [exact Hm|]. split; [exact Hsz|].
  split; [reflexivity|].
  exact (C7_empty_fragment_rejected [abc] (NewRecordMarker 0 true)
           ["x"; "y"]%byte Closed Habc Hm Hsz).
Defined.

(** A marker that announces [maxRecordSize] bytes or more: the bytes
    after the marker are skipped, as many as announced or as many as
    there are, and the read fails. *)
Lemma ReadRecord_loop_too_large (m : Z) (tail buf : list byte) (c : ending) :
  U32.in_range m -> maxRecordSize <= fst (ParseRecordMarker m) ->
  ReadRecord_loop (mkReader (BigEndian_PutUint32 m ++ tail) c) buf =
  (Fail (ErrRecordTooLarge maxRecordSize),
   mkReader (skipn (Z.to_nat (fst (ParseRecordMarker m))) tail) c).
Proof.
  intros Hm Hsz. rewrite ReadRecord_loop_step.
  rewrite ReadRecord_body_marker by assumption. cbv zeta.
  replace (fst (ParseRecordMarker m) <? 1) with false
    by (symmetry; apply Z.ltb_ge; unfold maxRecordSize in Hsz; lia).
  replace (fst (ParseRecordMarker m) >=? maxRecordSize) with true
    by (symmetry; rewrite Z.geb_leb; apply Z.leb_le; lia).
  reflexivity.
Qed.

(** C3. A fragment whose decoded length is [maxRecordSize] (32768) or
    more, with its payload present in the stream, after any number of
    accepted fragments: [ReadRecord] fails with the too-large error, no
    record is returned, and the reader is left right after the payload,
    at the next marker. *)
Theorem C3_oversize_fragment_drained
  (init : list Fragment) (f : Fragment) (rest : list byte) (c : ending) :
  leading init ->
  well_formed f -> maxRecordSize <= frag_size f ->
  maxRecordSize = 32768 /\
  ReadRecord (mkReader (stream_of init ++ on_wire f ++ rest) c) =
  (Fail (ErrRecordTooLarge maxRecordSize), mkReader rest c).
Proof.
  intros Hinit [Hm Hlen] Hsz. split; [reflexivity|].
  unfold ReadRecord, on_wire.
  rewrite ReadRecord_loop_leading by assumption.
  rewrite <- app_assoc.
  rewrite ReadRecord_loop_too_large by assumption.
  unfold frag_size in Hlen. rewrite Hlen, Nat2Z.id, skipn_exact.
  reflexivity.
Qed.

Lemma C3_oversize_fragment_drained_witness :
  leading [] /\ well_formed oversize /\ maxRecordSize <= frag_size oversize /\
  maxRecordSize = 32768 /\
  ReadRecord (mkReader (stream_of [] ++ on_wire oversize ++ on_wire de) Closed) =
  (Fail (ErrRecordTooLarge maxRecordSize), mkReader (on_wire de) Closed).
Proof.
  assert (Hinit : leading []) by constructor.
  assert (Hwf : well_formed oversize).
  { repeat split; vm_compute; congruence. }
  assert (Hsz : maxRecordSize <= frag_size oversize).
  { vm_compute. congruence. }
  split; [exact Hinit|]. split; [exact Hwf|]. split; [exact Hsz|].
  exact (C3_oversize_fragment_drained [] oversize (on_wire de) Closed
           Hinit Hwf Hsz).
Defined.

(** When the stream ends inside the payload of such a fragment, what is
    there is skipped and the error is the same. *)
Lemma ReadRecord_too_large_truncated
  (init : list Fragment) (m : Z) (tail : list byte) (c : ending) :
  leading init ->
  U32.in_range m -> maxRecordSize <= fst (ParseRecordMarker m) ->
  Z.of_nat (length tail) <= fst (ParseRecordMarker m) ->
  ReadRecord (mkReader (stream_of init ++ BigEndian_PutUint32 m ++ tail) c) =
  (Fail (ErrRecordTooLarge maxRecordSize), mkReader [] c).
Proof.
  intros Hinit Hm Hsz Hlen. unfold ReadRecord.
  rewrite ReadRecord_loop_leading by assumption.
  rewrite ReadRecord_loop_too_large by assumption.
  now rewrite skipn_all2 by lia.
Qed.

(** ** Truncated fragments *)

(** C8. An accepted marker (length from 1 to [maxRecordSize - 1]), after
    any number of accepted fragments, followed by fewer payload bytes
    than it announces before the stream ends or breaks: [ReadRecord]
    returns no record and fails with the error that reports the number
    of bytes read and the length expected. *)
Theorem C8_short_fragment_rejected
  (init : list Fragment) (m : Z) (partial : list byte) (c : ending) :
  leading init ->
  U32.in_range m ->
  1 <= fst (ParseRecordMarker m) < maxRecordSize ->
  Z.of_nat (length partial) < fst (ParseRecordMarker m) ->
  ReadRecord
    (mkReader (stream_of init ++ BigEndian_PutUint32 m ++ partial) c) =
  (Fail (ErrShortRecord (Z.of_nat (length partial))
           (fst (ParseRecordMarker m))),
   mkReader [] c).
Proof.
  intros Hinit Hm Hacc Hlen. unfold ReadRecord.
  rewrite ReadRecord_loop_leading by assumption.
  rewrite ReadRecord_loop_step.
  rewrite ReadRecord_body_marker by assumption. cbv zeta.
  destruct (size_tests_pass _ Hacc) as [-> ->].
  now rewrite CopyN_short by assumption.
Qed.

Lemma C8_short_fragment_rejected_witness :
  leading [abc] /\
  U32.in_range (NewRecordMarker 5 true) /\
  1 <= fst (ParseRecordMarker (NewRecordMarker 5 true)) < maxRecordSize /\
  Z.of_nat (length ["d"; "e"]%byte)
    < fst (ParseRecordMarker (NewRecordMarker 5 true)) /\
  ReadRecord
    (mkReader (stream_of [abc] ++ BigEndian_PutUint32 (NewRecordMarker 5 true)
                 ++ ["d"; "e"]%byte) (Broken "connection reset")) =
  (Fail (ErrShortRecord 2 5), mkReader [] (Broken "connection reset")).
Proof.
  assert (Habc : leading [abc]).
  { repeat constructor; vm_compute; congruence. }
  assert (Hm : U32.in_range (NewRecordMarker 5 true)).
  { split; vm_compute; congruence. }
  assert (Hacc : 1 <= fst (ParseRecordMarker (NewRecordMarker 5 true))
                 < maxRecordSize).
  { split; vm_compute; congruence. }
  assert (Hlen : Z.of_nat (length ["d"; "e"]%byte)
                 < fst (ParseRecordMarker (NewRecordMarker 5 true))).
  { vm_compute. reflexivity. }
  split; [exact Habc|]. split; [exact Hm|]. split; [exact Hacc|].
  split; [exact Hlen|].
  exact (C8_short_fragment_rejected [abc] (NewRecordMarker 5 true)
           ["d"; "e"]%byte (Broken "connection reset") Habc Hm Hacc Hlen).
Defined.

(** The text of that error. *)
Example short_record_message :
  Error (ErrShortRecord 2 5) =
  "Unable to read entire record. Read 2, expected 5"%string.
Proof. reflexivity. Qed.

(** ** Records are never empty *)

(** One pass through the body either returns a record longer than the
    buffer it started from, or goes on with a longer buffer, or fails. *)
Lemma ReadRecord_body_grows (r : Reader) (buf : list byte) :
  match fst (ReadRecord_body r buf) with
  | Return (Ok rec) => (length buf < length rec)%nat
  | Return (Fail _) => True
  | Continue buf' => (length buf < length buf')%nat
  end.
Proof.
  unfold ReadRecord_body, ReadRecordMarker, binary_Read.
  destruct (ReadFull r 4) as [[bs [e|]] r1]; [exact I|].
  destruct (ParseRecordMarker _) as [size last].
  destruct (Z.ltb_spec size 1) as [|Hsz]; [exact I|].
  destruct (size >=? maxRecordSize); [exact I|].
  unfold CopyN.
  destruct (Z.eqb_spec (Z.of_nat (length (firstn (Z.to_nat size) (pending r1))))
              size) as [Hcopied|]; [|exact I].
  assert (length buf < length (buf ++ firstn (Z.to_nat size) (pending r1)))%nat
    by (rewrite length_app; lia).
  now destruct last.
Qed.

Lemma ReadRecord_loop_grows (r : Reader) (buf rec : list byte) (r' : Reader) :
  ReadRecord_loop r buf = (Ok rec, r') -> (length buf < length rec)%nat.
Proof.
  funelim (ReadRecord_loop r buf); intros Hres;
    match goal with
    | E : ReadRecord_body ?r0 ?b0 = _ |- _ =>
        pose proof (ReadRecord_body_grows r0 b0) as Hg; rewrite E in Hg;
        cbn [fst] in Hg
    end.
  - now injection Hres as -> ->.
  - match goal with
    | IH : forall _ _, ReadRecord_loop _ _ = _ -> _ |- _ =>
        specialize (IH _ _ Hres)
    end.
    lia.
Qed.

(** C10. Whenever [ReadRecord] returns without error, the record it
    returns holds at least one byte. *)
Theorem C10_record_not_empty (r : Reader) (rec : list byte) (r' : Reader) :
  ReadRecord r = (Ok rec, r') -> (1 <= length rec)%nat.
Proof.
  intros Hres. apply ReadRecord_loop_grows in Hres. cbn in Hres. lia.
Qed.

Lemma C10_record_not_empty_witness :
  ReadRecord (mkReader (on_wire hello) Closed) =
  (Ok (payload hello), mkReader [] Closed) /\
  (1 <= length (payload hello))%nat.
Proof.
  assert (Hres : ReadRecord (mkReader (on_wire hello) Closed) =
                 (Ok (payload hello), mkReader [] Closed))
    by (vm_compute; reflexivity).
  split; [exact Hres|].
  exact (C10_record_not_empty _ _ _ Hres).
Defined.

(** ** MarkerIO *)

(** C5. Whenever [ReadRecordMarker] fails, fewer than 4 bytes were left
    in the stream, the error is one of the stream ([io.EOF],
    [io.ErrUnexpectedEOF] or the error of the transport), the flag is
    reported as [true] and the size as [0]. *)
Theorem C5_failed_marker_read
  (r : Reader) (size : Z) (last : bool) (err : error) (r' : Reader) :
  ReadRecordMarker r = (size, last, Some err, r') ->
  size = 0 /\ last = true /\ from_stream err = true /\
  (length (pending r) < 4)%nat.
Proof.
  intros Hread.
  destruct (Nat.lt_ge_cases (length (pending r)) 4) as [Hshort | Hlong].
  - rewrite ReadRecordMarker_short in Hread by assumption.
    injection Hread as <- <- <- _.
    repeat split; try assumption.
    destruct (pending r), (closing r); reflexivity.
  - apply ReadRecordMarker_enough in Hlong.
    rewrite Hread in Hlong. discriminate.
Qed.

Lemma C5_failed_marker_read_witness :
  ReadRecordMarker (mkReader [x80; x00]%byte Closed) =
  (0, true, Some ErrUnexpectedEOF, mkReader [] Closed) /\
  (0 = 0 /\ true = true /\ from_stream ErrUnexpectedEOF = true /\
   (length (pending (mkReader [x80; x00]%byte Closed)) < 4)%nat).
Proof.
  assert (Hread : ReadRecordMarker (mkReader [x80; x00]%byte Closed) =
                  (0, true, Some ErrUnexpectedEOF, mkReader [] Closed))
    by reflexivity.
  split; [exact Hread|].
  exact (C5_failed_marker_read _ _ _ _ _ Hread).
Defined.

(** An empty stream and a broken one. *)
Example marker_read_at_eof :
  ReadRecordMarker (mkReader [] Closed) = (0, true, Some EOF, mkReader [] Closed).
Proof. reflexivity. Qed.

Example marker_read_broken :
  ReadRecordMarker (mkReader [x80]%byte (Broken "reset")) =
  (0, true, Some (ErrTransport "reset"), mkReader [] (Broken "reset")).
Proof. reflexivity. Qed.

(** ** ReplyFramer *)

Lemma Write_fits (w : Writer) (p : list byte) :
  has_room w (length p) ->
  Write w p =
  (Z.of_nat (length p), None,
   mkWriter (sent w ++ p) (room_after w (length p)) (broken w)).
Proof.
  unfold has_room, room_after, Write. destruct (room w) as [k|]; cbn.
  - intros Hk. apply Nat.leb_le in Hk. now rewrite Hk.
  - reflexivity.
Qed.

Lemma WriteRecordMarker_fits (w : Writer) (size : Z) (last : bool) :
  has_room w 4 ->
  WriteRecordMarker w size last =
  (None,
   mkWriter (sent w ++ BigEndian_PutUint32 (NewRecordMarker (U32.of_int size) last))
     (room_after w 4) (broken w)).
Proof.
  intros Hroom. unfold WriteRecordMarker, binary_Write.
  rewrite Write_fits by exact Hroom. reflexivity.
Qed.

(** A reply that the writer has room for is written as one marker,
    flagged as last, and the payload. *)
Lemma WriteTCPReplyMessage_fits (w : Writer) (reply : list byte) :
  has_room w (4 + length reply) ->
  WriteTCPReplyMessage w reply =
  (None,
   mkWriter
     (sent w ++
      BigEndian_PutUint32
        (NewRecordMarker (U32.of_int (Z.of_nat (length reply))) true) ++ reply)
     (room_after w (4 + length reply)) (broken w)).
Proof.
  intros Hroom. unfold WriteTCPReplyMessage.
  assert (H4 : has_room w 4).
  { unfold has_room in *. destruct (room w); [lia | exact I]. }
  rewrite WriteRecordMarker_fits by exact H4.
  rewrite Write_fits.
  - cbn [sent room broken]. rewrite <- app_assoc. f_equal. f_equal.
    unfold room_after. destruct (room w); cbn; [f_equal; lia | reflexivity].
  - unfold has_room, room_after in *. cbn [room].
    destruct (room w); cbn; [lia | exact I].
Qed.

(** A frame of one fragment, flagged as last, with a payload of 1 to
    [maxRecordSize - 1] bytes, is read back as the payload. *)
Lemma ReadRecord_single_frame (p : list byte) (c : ending) :
  1 <= Z.of_nat (length p) < maxRecordSize ->
  ReadRecord
    (mkReader
       (BigEndian_PutUint32
          (NewRecordMarker (U32.of_int (Z.of_nat (length p))) true) ++ p) c) =
  (Ok p, mkReader [] c).
Proof.
  intros Hlen. unfold maxRecordSize in Hlen.
  unfold U32.of_int, U32.modulus. rewrite Z.mod_small by lia.
  set (f := mkFragment (NewRecordMarker (Z.of_nat (length p)) true) p).
  assert (Hparse : ParseRecordMarker (marker f) = (Z.of_nat (length p), true))
    by (apply ParseRecordMarker_NewRecordMarker; lia).
  assert (Hwf : well_formed f).
  { split.
    - apply NewRecordMarker_in_range. unfold U32.in_range, U32.modulus. lia.
    - unfold frag_size. now rewrite Hparse. }
  assert (Hacc : accepted f).
  { unfold accepted, frag_size, maxRecordSize. rewrite Hparse. cbn [fst]. lia. }
  assert (Hlast : frag_last f = true)
    by (unfold frag_last; now rewrite Hparse).
  unfold ReadRecord. rewrite ReadRecord_loop_step.
  change (BigEndian_PutUint32 (NewRecordMarker (Z.of_nat (length p)) true) ++ p)
    with (on_wire f).
  rewrite <- (app_nil_r (on_wire f)).
  rewrite ReadRecord_body_accepted, Hlast by assumption.
  reflexivity.
Qed.

(** C1, as the code has it. For every payload the writer has room for,
    [WriteTCPReplyMessage] succeeds and adds to the stream exactly the 4
    big-endian bytes of [NewRecordMarker(len(payload), true)] followed by
    the payload; when the payload holds from 1 to [maxRecordSize - 1]
    bytes, [ReadRecord] on those bytes returns the payload unchanged. *)
Theorem C1_reply_framing (w : Writer) (reply : list byte) (c : ending) :
  has_room w (4 + length reply) ->
  let frame :=
    BigEndian_PutUint32
      (NewRecordMarker (U32.of_int (Z.of_nat (length reply))) true) ++ reply in
  fst (WriteTCPReplyMessage w reply) = None /\
  sent (snd (WriteTCPReplyMessage w reply)) = sent w ++ frame /\
  (1 <= Z.of_nat (length reply) < maxRecordSize ->
   ReadRecord (mkReader frame c) = (Ok reply, mkReader [] c)).
Proof.
  intros Hroom frame.
  rewrite WriteTCPReplyMessage_fits by exact Hroom. cbn [fst snd sent].
  split; [reflexivity|]. split; [reflexivity|].
  apply ReadRecord_single_frame.
Qed.

Lemma C1_reply_framing_witness :
  has_room empty_buffer (4 + length (payload hello)) /\
  fst (WriteTCPReplyMessage empty_buffer (payload hello)) = None /\
  sent (snd (WriteTCPReplyMessage empty_buffer (payload hello))) =
  [x80; x00; x00; x05; "h"; "e"; "l"; "l"; "o"]%byte /\
  ReadRecord (mkReader [x80; x00; x00; x05; "h"; "e"; "l"; "l"; "o"]%byte Closed) =
  (Ok (payload hello), mkReader [] Closed).
Proof.
  assert (Hroom : has_room empty_buffer (4 + length (payload hello)))
    by exact I.
  destruct (C1_reply_framing empty_buffer (payload hello) Closed Hroom)
    as (Herr & Hsent & Hread).
  split; [exact Hroom|]. split; [exact Herr|]. split; [exact Hsent|].
  apply Hread. split; vm_compute; congruence.
Defined.

(** C1 as the claim states it fails: the frame written for the empty
    payload is rejected by [ReadRecord]. *)
Lemma C1_empty_reply_not_read_back :
  ~ (forall reply : list byte,
       fst (ReadRecord
              (mkReader (sent (snd (WriteTCPReplyMessage empty_buffer reply)))
                 Closed)) = Ok reply).
Proof.
  intros Hall. specialize (Hall []). vm_compute in Hall. discriminate Hall.
Qed.

(** What happens there, and for a reply of [maxRecordSize] bytes. *)
Example empty_reply_rejected :
  sent (snd (WriteTCPReplyMessage empty_buffer [])) = [x80; x00; x00; x00]%byte /\
  ReadRecord (mkReader [x80; x00; x00; x00]%byte Closed) =
  (Fail ErrEmptyRecord, mkReader [] Closed).
Proof. split; vm_compute; reflexivity. Qed.

Example large_reply_rejected :
  let reply := repeat x00 (Z.to_nat maxRecordSize) in
  fst (ReadRecord
         (mkReader (sent (snd (WriteTCPReplyMessage empty_buffer reply))) Closed)) =
  Fail (ErrRecordTooLarge 32768).
Proof. vm_compute. reflexivity. Qed.

(** * Further properties of the code *)

(** ** The marker codec *)

(** X1. The marker of a last fragment is the marker of a fragment of the
    same size that is not the last, with bit 31 set: the flag and the
    size do not interfere, whatever the size. *)
Theorem X1_last_sets_top_bit (size : Z) :
  NewRecordMarker size true = Z.lor (NewRecordMarker size false) 0x80000000 /\
  NewRecordMarker size false = Z.ldiff (NewRecordMarker size true) 0x80000000.
Proof.
  unfold NewRecordMarker. change (Z.shiftl 1 31) with 0x80000000.
  split.
  - apply Z.lxor_lor. apply Z.land_ldiff.
  - apply Z.bits_inj'. intros i Hi.
    rewrite !Z.ldiff_spec, Z.lxor_spec, Z.ldiff_spec.
    destruct (Z.testbit size i), (Z.testbit 0x80000000 i); reflexivity.
Qed.

(** X2. A size of [2^31] or more is not refused: its bit 31 is dropped,
    and the marker decodes to the size reduced modulo [2^31], with the
    flag as given. *)
Theorem X2_size_truncated (size : Z) (last : bool) :
  U32.in_range size ->
  ParseRecordMarker (NewRecordMarker size last) = (size mod 2 ^ 31, last) /\
  NewRecordMarker size last = NewRecordMarker (size mod 2 ^ 31) last.
Proof.
  intros Hs.
  pose proof (Z.mod_pos_bound size (2 ^ 31) ltac:(lia)) as Hfield.
  assert (Hsame : NewRecordMarker size last =
                  NewRecordMarker (size mod 2 ^ 31) last).
  { rewrite !NewRecordMarker_arith;
      [now rewrite Z.mod_mod by lia | | assumption].
    unfold U32.in_range, U32.modulus. lia. }
  split; [|exact Hsame].
  rewrite Hsame. now apply ParseRecordMarker_NewRecordMarker.
Qed.

Lemma X2_size_truncated_witness :
  U32.in_range 0x80000005 /\
  ParseRecordMarker (NewRecordMarker 0x80000005 false) = (5, false) /\
  NewRecordMarker 0x80000005 false = NewRecordMarker 5 false.
Proof.
  assert (Hs : U32.in_range 0x80000005)
    by (unfold U32.in_range, U32.modulus; lia).
  split; [exact Hs|].
  exact (X2_size_truncated 0x80000005 false Hs).
Defined.

(** ** Four bytes and the word they spell *)

Lemma byte_val_range (b : byte) : 0 <= byte_val b < 256.
Proof.
  unfold byte_val. pose proof (Byte.to_N_bounded b). lia.
Qed.

Lemma byte_of_val (z : Z) (b : byte) : z mod 256 = byte_val b -> byte_of z = b.
Proof.
  intros Hz. unfold byte_of. rewrite Hz. unfold byte_val.
  now rewrite N2Z.id, Byte.of_to_N.
Qed.

(** Or-ing a value below [2^k] with a multiple of [2^k] adds them. *)
Lemma lor_disjoint (lo hi k : Z) :
  0 <= k -> 0 <= lo < 2 ^ k -> Z.lor lo (hi * 2 ^ k) = lo + hi * 2 ^ k.
Proof.
  intros Hk Hlo.
  assert (Hand : Z.land lo (hi * 2 ^ k) = 0).
  { rewrite <- Z.shiftl_mul_pow2 by assumption.
    apply Z.bits_inj'. intros i Hi.
    rewrite Z.land_spec, Z.bits_0.
    destruct (Z.ltb_spec i k).
    - rewrite Z.shiftl_spec_low by assumption. apply andb_false_r.
    - replace (Z.testbit lo i) with false; [reflexivity|].
      symmetry. apply Z.testbit_false; [assumption|].
      rewrite Z.div_small; [reflexivity|].
      split; [lia|].
      apply Z.lt_le_trans with (2 ^ k); [lia|].
      apply Z.pow_le_mono_r; lia. }
  rewrite <- (Z.lxor_lor _ _ Hand). symmetry.
  now apply Z.add_nocarry_lxor.
Qed.

Lemma BigEndian_Uint32_sum (b0 b1 b2 b3 : byte) :
  BigEndian_Uint32 [b0; b1; b2; b3] =
  byte_val b3 + byte_val b2 * 2 ^ 8 + byte_val b1 * 2 ^ 16
  + byte_val b0 * 2 ^ 24.
Proof.
  pose proof (byte_val_range b0). pose proof (byte_val_range b1).
  pose proof (byte_val_range b2). pose proof (byte_val_range b3).
  unfold BigEndian_Uint32. rewrite !Z.shiftl_mul_pow2 by lia.
  rewrite (lor_disjoint (byte_val b1 * 2 ^ 16) (byte_val b0) 24) by lia.
  replace (byte_val b1 * 2 ^ 16 + byte_val b0 * 2 ^ 24)
    with ((byte_val b1 + byte_val b0 * 2 ^ 8) * 2 ^ 16) by lia.
  rewrite (lor_disjoint (byte_val b2 * 2 ^ 8) _ 16) by lia.
  replace (byte_val b2 * 2 ^ 8 + (byte_val b1 + byte_val b0 * 2 ^ 8) * 2 ^ 16)
    with ((byte_val b2 + byte_val b1 * 2 ^ 8 + byte_val b0 * 2 ^ 16) * 2 ^ 8)
    by lia.
  rewrite (lor_disjoint (byte_val b3) _ 8) by lia. lia.
Qed.

Lemma BigEndian_Uint32_in_range (bs : list byte) :
  U32.in_range (BigEndian_Uint32 bs).
Proof.
  unfold U32.in_range, U32.modulus.
  destruct bs as [|b0 [|b1 [|b2 [|b3 [|b4 bs]]]]]; try (cbn; lia).
  rewrite BigEndian_Uint32_sum.
  pose proof (byte_val_range b0). pose proof (byte_val_range b1).
  pose proof (byte_val_range b2). pose proof (byte_val_range b3). lia.
Qed.

(** Four bytes are the big-endian bytes of the word they spell. *)
Lemma BigEndian_PutUint32_Uint32 (bs : list byte) :
  length bs = 4%nat -> BigEndian_PutUint32 (BigEndian_Uint32 bs) = bs.
Proof.
  destruct bs as [|b0 [|b1 [|b2 [|b3 [|b4 bs]]]]]; try discriminate.
  intros _. rewrite BigEndian_Uint32_sum.
  pose proof (byte_val_range b0). pose proof (byte_val_range b1).
  pose proof (byte_val_range b2). pose proof (byte_val_range b3).
  unfold BigEndian_PutUint32. rewrite !Z.shiftr_div_pow2 by lia.
  repeat f_equal; apply byte_of_val;
    change (2 ^ 8) with 256; change (2 ^ 16) with 65536;
    change (2 ^ 24) with 16777216;
    Z.div_mod_to_equations; lia.
Qed.

(** ** Markers on a stream *)

(** A read of the marker from a stream of 4 bytes or more. *)
Lemma ReadRecordMarker_available (r : Reader) :
  (4 <= length (pending r))%nat ->
  ReadRecordMarker r =
  (fst (ParseRecordMarker (BigEndian_Uint32 (firstn 4 (pending r)))),
   snd (ParseRecordMarker (BigEndian_Uint32 (firstn 4 (pending r)))),
   None, advance 4 r).
Proof.
  intros H4. unfold ReadRecordMarker, binary_Read, ReadFull.
  apply Nat.leb_le in H4. rewrite H4.
  now destruct (ParseRecordMarker _).
Qed.

(** The pair a marker decodes to spells the marker again. *)
Lemma NewRecordMarker_ParseRecordMarker (m : Z) :
  U32.in_range m ->
  NewRecordMarker (fst (ParseRecordMarker m)) (snd (ParseRecordMarker m)) = m.
Proof.
  intros Hm. rewrite (ParseRecordMarker_arith m Hm). cbn [fst snd].
  pose proof Hm as [Hlo Hhi]. unfold U32.modulus in Hhi.
  pose proof (Z.mod_pos_bound m (2 ^ 31) ltac:(lia)) as Hfield.
  rewrite NewRecordMarker_arith by (unfold U32.in_range, U32.modulus; lia).
  rewrite Z.mod_mod by lia.
  pose proof (Z.div_mod m (2 ^ 31) ltac:(lia)) as Hdm.
  assert (Hq : 0 <= m / 2 ^ 31 < 2).
  { split; [apply Z.div_pos; lia | apply Z.div_lt_upper_bound; lia]. }
  destruct (Z.eqb_spec (m / 2 ^ 31) 1); nia.
Qed.

(** X3. [ReadRecordMarker] on a stream that still holds 4 bytes or more
    succeeds, uses up exactly the first 4 bytes, returns a size below
    [2^31], and the pair it returns encodes back to those 4 bytes. *)
Theorem X3_marker_read_succeeds (r : Reader) :
  (4 <= length (pending r))%nat ->
  exists size last,
    ReadRecordMarker r = (size, last, None, advance 4 r) /\
    0 <= size < 2 ^ 31 /\
    BigEndian_PutUint32 (NewRecordMarker size last) = firstn 4 (pending r).
Proof.
  intros H4. rewrite ReadRecordMarker_available by assumption.
  set (m := BigEndian_Uint32 (firstn 4 (pending r))).
  assert (Hm : U32.in_range m) by apply BigEndian_Uint32_in_range.
  exists (fst (ParseRecordMarker m)), (snd (ParseRecordMarker m)).
  split; [reflexivity|]. split.
  - rewrite (ParseRecordMarker_arith m Hm). cbn [fst].
    apply Z.mod_pos_bound. lia.
  - rewrite NewRecordMarker_ParseRecordMarker by assumption.
    apply BigEndian_PutUint32_Uint32. rewrite length_firstn. lia.
Qed.

Lemma X3_marker_read_succeeds_witness :
  (4 <= length (pending (mkReader (on_wire hello) Closed)))%nat /\
  exists size last,
    ReadRecordMarker (mkReader (on_wire hello) Closed) =
    (size, last, None, advance 4 (mkReader (on_wire hello) Closed)) /\
    0 <= size < 2 ^ 31 /\
    BigEndian_PutUint32 (NewRecordMarker size last) =
    firstn 4 (pending (mkReader (on_wire hello) Closed)).
Proof.
  assert (H4 : (4 <= length (pending (mkReader (on_wire hello) Closed)))%nat)
    by (vm_compute; lia).
  split; [exact H4|].
  exact (X3_marker_read_succeeds (mkReader (on_wire hello) Closed) H4).
Defined.

(** X4. Marker round trip through a stream: for a size below [2^31],
    [WriteRecordMarker] on a writer with room puts 4 bytes on the
    stream, and [ReadRecordMarker] on those bytes returns the size and
    the flag, leaving what follows them untouched. *)
Theorem X4_marker_write_read
  (w : Writer) (size : Z) (last : bool) (rest : list byte) (c : ending) :
  has_room w 4 -> 0 <= size < 2 ^ 31 ->
  exists bytes,
    length bytes = 4%nat /\
    WriteRecordMarker w size last =
    (None, mkWriter (sent w ++ bytes) (room_after w 4) (broken w)) /\
    ReadRecordMarker (mkReader (bytes ++ rest) c) =
    (size, last, None, mkReader rest c).
Proof.
  intros Hroom Hsize.
  assert (Hconv : U32.of_int size = size)
    by (unfold U32.of_int, U32.modulus; apply Z.mod_small; lia).
  exists (BigEndian_PutUint32 (NewRecordMarker size last)).
  split; [reflexivity|]. split.
  - rewrite WriteRecordMarker_fits by assumption. now rewrite Hconv.
  - rewrite ReadRecordMarker_word.
    + now rewrite ParseRecordMarker_NewRecordMarker by assumption.
    + apply NewRecordMarker_in_range. unfold U32.in_range, U32.modulus. lia.
Qed.

Lemma X4_marker_write_read_witness :
  has_room empty_buffer 4 /\ 0 <= 300 < 2 ^ 31 /\
  exists bytes,
    length bytes = 4%nat /\
    WriteRecordMarker empty_buffer 300 false =
    (None, mkWriter (sent empty_buffer ++ bytes) (room_after empty_buffer 4)
             (broken empty_buffer)) /\
    ReadRecordMarker (mkReader (bytes ++ ["z"]%byte) Closed) =
    (300, false, None, mkReader ["z"]%byte Closed).
Proof.
  assert (Hroom : has_room empty_buffer 4) by exact I.
  assert (Hsize : 0 <= 300 < 2 ^ 31) by lia.
  split; [exact Hroom|]. split; [exact Hsize|].
  exact (X4_marker_write_read empty_buffer 300 false ["z"]%byte Closed
           Hroom Hsize).
Defined.

(** ** Records that never end *)

(** X5. A stream that ends, or breaks, at a fragment boundary or inside
    a marker before any fragment flagged as last: [ReadRecord] returns
    no record, whatever it had accumulated, and fails with the error of
    the marker read ([io.EOF] at a boundary of a closed stream,
    [io.ErrUnexpectedEOF] inside a marker, the error of the transport on
    a broken stream). *)
Theorem X5_stream_ends_before_last
  (init : list Fragment) (t : list byte) (c : ending) :
  leading init -> (length t < 4)%nat ->
  ReadRecord (mkReader (stream_of init ++ t) c) =
  (Fail (match t, c with
         | _ :: _, Closed => ErrUnexpectedEOF
         | _, c => ending_error c
         end),
   mkReader [] c).
Proof.
  intros Hinit Ht. unfold ReadRecord.
  rewrite ReadRecord_loop_leading by assumption.
  rewrite ReadRecord_loop_step. unfold ReadRecord_body.
  rewrite ReadRecordMarker_short by exact Ht. cbn [pending closing].
  now destruct t, c.
Qed.

Lemma X5_stream_ends_before_last_witness :
  leading [abc] /\ (length (@nil byte) < 4)%nat /\
  ReadRecord (mkReader (stream_of [abc] ++ []) Closed) =
  (Fail EOF, mkReader [] Closed).
Proof.
  assert (Habc : leading [abc]).
  { repeat constructor; vm_compute; congruence. }
  assert (Ht : (length (@nil byte) < 4)%nat) by (cbn; lia).
  split; [exact Habc|]. split; [exact Ht|].
  exact (X5_stream_ends_before_last [abc] [] Closed Habc Ht).
Defined.

(** ** What a successful read has consumed *)

(** A pass through the body that does not fail has taken one accepted
    fragment off the front of the stream and appended its payload. *)
Lemma ReadRecord_body_took
  (r : Reader) (buf : list byte) (fl : flow) (r' : Reader)
  (b : list byte) (last : bool) :
  ReadRecord_body r buf = (fl, r') ->
  fl = (if last then Return (Ok b) else Continue b) ->
  exists f,
    well_formed f /\ accepted f /\ frag_last f = last /\
    pending r = on_wire f ++ pending r' /\
    b = buf ++ payload f /\ closing r' = closing r.
Proof.
  intros Hbody Hfl.
  destruct (Nat.lt_ge_cases (length (pending r)) 4) as [Hshort | H4].
  { unfold ReadRecord_body in Hbody.
    rewrite ReadRecordMarker_short in Hbody by assumption.
    injection Hbody as <- _. now destruct last. }
  unfold ReadRecord_body in Hbody.
  rewrite ReadRecordMarker_available in Hbody by assumption.
  set (m := BigEndian_Uint32 (firstn 4 (pending r))) in *.
  set (size := fst (ParseRecordMarker m)) in *.
  destruct (Z.ltb_spec size 1) as [|Hlow];
    [injection Hbody as <- _; now destruct last|].
  rewrite Z.geb_leb in Hbody.
  destruct (Z.leb_spec maxRecordSize size) as [|Hhigh];
    [injection Hbody as <- _; now destruct last|].
  unfold CopyN in Hbody. cbn [pending closing advance] in Hbody.
  set (got := firstn (Z.to_nat size) (skipn 4 (pending r))) in *.
  destruct (Z.eqb_spec (Z.of_nat (length got)) size) as [Hgot|];
    [|injection Hbody as <- _; now destruct last].
  exists (mkFragment m got).
  assert (Hlast : snd (ParseRecordMarker m) = last /\ b = buf ++ got /\
                  r' = mkReader (skipn (Z.to_nat size) (skipn 4 (pending r)))
                         (closing r)).
  { destruct (snd (ParseRecordMarker m)), last;
      injection Hbody as <- <-; try discriminate Hfl;
      injection Hfl as <-; auto. }
  destruct Hlast as (Hl & -> & ->).
  split.
  { split; [apply BigEndian_Uint32_in_range|].
    unfold frag_size. cbn [marker payload]. fold size. lia. }
  split.
  { unfold accepted, frag_size. cbn [marker]. fold size. lia. }
  split; [exact Hl|]. split; [|split; reflexivity].
  unfold on_wire. cbn [marker payload pending].
  unfold m. rewrite BigEndian_PutUint32_Uint32
    by (rewrite length_firstn; lia).
  unfold got. rewrite <- app_assoc.
  now rewrite !firstn_skipn.
Qed.

Lemma ReadRecord_loop_took
  (r : Reader) (buf rec : list byte) (r' : Reader) :
  ReadRecord_loop r buf = (Ok rec, r') ->
  exists init final,
    leading init /\ well_formed final /\ accepted final /\
    frag_last final = true /\
    pending r = stream_of (init ++ [final]) ++ pending r' /\
    rec = buf ++ payloads (init ++ [final]) /\ closing r' = closing r.
Proof.
  funelim (ReadRecord_loop r buf); intros Hres.
  - injection Hres as -> ->.
    match goal with
    | E : ReadRecord_body _ _ = _ |- _ =>
        destruct (ReadRecord_body_took _ _ _ _ rec true E eq_refl)
          as (f & Hwf & Hacc & Hlast & Hpend & Hrec & Hc)
    end.
    exists [], f. unfold stream_of, payloads. cbn [app map concat].
    rewrite !app_nil_r.
    split; [constructor|]. split; [exact Hwf|]. split; [exact Hacc|].
    split; [exact Hlast|]. split; [exact Hpend|]. split; assumption.
  - match goal with
    | E : ReadRecord_body _ _ = _ |- _ =>
        destruct (ReadRecord_body_took _ _ _ _ buf' false E eq_refl)
          as (f & Hwf & Hacc & Hlast & Hpend & Hbuf & Hc)
    end.
    match goal with
    | IH : forall _ _, ReadRecord_loop _ _ = _ -> _ |- _ =>
        destruct (IH _ _ Hres)
          as (init & final & Hinit & Hwf' & Hacc' & Hlast' & Hpend' & Hrec & Hc')
    end.
    exists (f :: init), final.
    split; [constructor; [split; [|split]; assumption | assumption]|].
    split; [exact Hwf'|]. split; [exact Hacc'|]. split; [exact Hlast'|].
    split; [|split].
    + rewrite Hpend, Hpend'. unfold stream_of. cbn [app map concat].
      now rewrite <- !app_assoc.
    + rewrite Hrec, Hbuf. unfold payloads. cbn [app map concat].
      now rewrite <- !app_assoc.
    + congruence.
Qed.

(** X6. [ReadRecord] succeeds only on a stream that begins with accepted
    fragments, the final one flagged as last and no earlier one; the
    record is the payloads of those fragments in order, and the reader
    is left with exactly the bytes that follow the final fragment. *)
Theorem X6_success_only_on_fragments
  (r : Reader) (rec : list byte) (r' : Reader) :
  ReadRecord r = (Ok rec, r') ->
  exists init final,
    leading init /\ well_formed final /\ accepted final /\
    frag_last final = true /\
    pending r = stream_of (init ++ [final]) ++ pending r' /\
    rec = payloads (init ++ [final]) /\ closing r' = closing r.
Proof.
  intros Hres. apply ReadRecord_loop_took in Hres. exact Hres.
Qed.

Lemma X6_success_only_on_fragments_witness :
  ReadRecord (mkReader (stream_of [abc; de] ++ ["z"]%byte) Closed) =
  (Ok ["a"; "b"; "c"; "d"; "e"]%byte, mkReader ["z"]%byte Closed) /\
  exists init final,
    leading init /\ well_formed final /\ accepted final /\
    frag_last final = true /\
    pending (mkReader (stream_of [abc; de] ++ ["z"]%byte) Closed) =
    stream_of (init ++ [final]) ++ pending (mkReader ["z"]%byte Closed) /\
    ["a"; "b"; "c"; "d"; "e"]%byte = payloads (init ++ [final]) /\
    closing (mkReader ["z"]%byte Closed) =
    closing (mkReader (stream_of [abc; de] ++ ["z"]%byte) Closed).
Proof.
  assert (Hres : ReadRecord (mkReader (stream_of [abc; de] ++ ["z"]%byte) Closed) =
                 (Ok ["a"; "b"; "c"; "d"; "e"]%byte, mkReader ["z"]%byte Closed))
    by (vm_compute; reflexivity).
  split; [exact Hres|].
  exact (X6_success_only_on_fragments _ _ _ Hres).
Defined.

(** ** Records of any length, and records in sequence *)

(** The loop on a whole record. *)
Lemma ReadRecord_loop_record
  (init : list Fragment) (final : Fragment) (rest buf : list byte) (c : ending) :
  leading init ->
  well_formed final -> accepted final -> frag_last final = true ->
  ReadRecord_loop (mkReader (stream_of (init ++ [final]) ++ rest) c) buf =
  (Ok (buf ++ payloads (init ++ [final])), mkReader rest c).
Proof.
  intros Hinit Hwf Hacc Hlast.
  rewrite stream_of_snoc, payloads_snoc, <- app_assoc.
  rewrite ReadRecord_loop_leading by assumption.
  rewrite ReadRecord_loop_step.
  rewrite ReadRecord_body_accepted, Hlast by assumption.
  now rewrite app_assoc.
Qed.

(** A one-byte fragment with the given flag. *)
Lemma one_byte_fragment (b : byte) (last : bool) :
  let f := mkFragment (NewRecordMarker 1 last) [b] in
  well_formed f /\ accepted f /\ frag_last f = last.
Proof.
  cbv zeta. unfold well_formed, accepted, frag_size, frag_last.
  cbn [marker payload].
  rewrite ParseRecordMarker_NewRecordMarker by lia. cbn [fst snd length].
  split; [split; [|reflexivity] | split; [unfold maxRecordSize; lia | reflexivity]].
  apply NewRecordMarker_in_range. unfold U32.in_range, U32.modulus. lia.
Qed.

Lemma one_byte_fragments_leading (l : list byte) :
  leading (map (fun b => mkFragment (NewRecordMarker 1 false) [b]) l) /\
  payloads (map (fun b => mkFragment (NewRecordMarker 1 false) [b]) l) = l.
Proof.
  induction l as [|b l [IHl IHp]].
  - split; [constructor | reflexivity].
  - split.
    + constructor; [apply (one_byte_fragment b false) | exact IHl].
    + unfold payloads in *. cbn [map concat payload app]. now rewrite IHp.
Qed.

(** X7. Every non-empty byte string, of whatever length, is the record
    of some stream: the limit of [maxRecordSize] bounds each fragment,
    not the record that [ReadRecord] returns. *)
Theorem X7_any_record_can_be_read (p : list byte) :
  p <> [] ->
  exists s, forall c, ReadRecord (mkReader s c) = (Ok p, mkReader [] c).
Proof.
  intros Hp.
  destruct (exists_last Hp) as (l & b & ->).
  destruct (one_byte_fragments_leading l) as [Hlead Hpay].
  destruct (one_byte_fragment b true) as (Hwf & Hacc & Hlast).
  exists (stream_of (map (fun b => mkFragment (NewRecordMarker 1 false) [b]) l
                       ++ [mkFragment (NewRecordMarker 1 true) [b]])).
  intros c. unfold ReadRecord.
  rewrite <- (app_nil_r (stream_of _)).
  rewrite ReadRecord_loop_record by assumption.
  rewrite payloads_snoc, Hpay. reflexivity.
Qed.

Lemma X7_any_record_can_be_read_witness :
  payload hello <> [] /\
  exists s, forall c,
    ReadRecord (mkReader s c) = (Ok (payload hello), mkReader [] c).
Proof.
  assert (Hp : payload hello <> []) by discriminate.
  split; [exact Hp|].
  exact (X7_any_record_can_be_read (payload hello) Hp).
Defined.

(** X8. Two records one after the other in a stream are returned by two
    calls of [ReadRecord], in order: the first call leaves the reader at
    the first marker of the second record. *)
Theorem X8_records_in_sequence
  (init1 : list Fragment) (final1 : Fragment)
  (init2 : list Fragment) (final2 : Fragment)
  (rest : list byte) (c : ending) :
  leading init1 ->
  well_formed final1 -> accepted final1 -> frag_last final1 = true ->
  leading init2 ->
  well_formed final2 -> accepted final2 -> frag_last final2 = true ->
  let r := mkReader (stream_of (init1 ++ [final1])
                       ++ stream_of (init2 ++ [final2]) ++ rest) c in
  fst (ReadRecord r) = Ok (payloads (init1 ++ [final1])) /\
  ReadRecord (snd (ReadRecord r)) =
  (Ok (payloads (init2 ++ [final2])), mkReader rest c).
Proof.
  intros Hi1 Hw1 Ha1 Hl1 Hi2 Hw2 Ha2 Hl2 r. unfold r, ReadRecord.
  rewrite ReadRecord_loop_record by assumption. cbn [fst snd].
  split; [reflexivity|].
  now rewrite ReadRecord_loop_record by assumption.
Qed.

Lemma X8_records_in_sequence_witness :
  leading [abc] /\ well_formed de /\ accepted de /\ frag_last de = true /\
  leading [] /\ well_formed hello /\ accepted hello /\ frag_last hello = true /\
  let r := mkReader (stream_of ([abc] ++ [de])
                       ++ stream_of ([] ++ [hello]) ++ []) Closed in
  fst (ReadRecord r) = Ok (payloads ([abc] ++ [de])) /\
  ReadRecord (snd (ReadRecord r)) =
  (Ok (payloads ([] ++ [hello])), mkReader [] Closed).
Proof.
  assert (Hi1 : leading [abc]) by (repeat constructor; vm_compute; congruence).
  assert (Hw1 : well_formed de) by (repeat constructor; vm_compute; congruence).
  assert (Ha1 : accepted de) by (repeat constructor; vm_compute; congruence).
  assert (Hl1 : frag_last de = true) by reflexivity.
  assert (Hi2 : leading []) by constructor.
  assert (Hw2 : well_formed hello)
    by (repeat constructor; vm_compute; congruence).
  assert (Ha2 : accepted hello) by (repeat constructor; vm_compute; congruence).
  assert (Hl2 : frag_last hello = true) by reflexivity.
  split; [exact Hi1|]. split; [exact Hw1|]. split; [exact Ha1|].
  split; [exact Hl1|]. split; [exact Hi2|]. split; [exact Hw2|].
  split; [exact Ha2|]. split; [exact Hl2|].
  exact (X8_records_in_sequence [abc] de [] hello [] Closed
           Hi1 Hw1 Ha1 Hl1 Hi2 Hw2 Ha2 Hl2).
Defined.

(** X9. After a fragment of [maxRecordSize] bytes or more has been
    rejected, its payload being in the stream, the next call of
    [ReadRecord] returns the record that follows it. *)
Theorem X9_next_record_after_oversize
  (init : list Fragment) (f : Fragment)
  (init2 : list Fragment) (final2 : Fragment)
  (rest : list byte) (c : ending) :
  leading init -> well_formed f -> maxRecordSize <= frag_size f ->
  leading init2 ->
  well_formed final2 -> accepted final2 -> frag_last final2 = true ->
  let r := mkReader (stream_of init ++ on_wire f
                       ++ stream_of (init2 ++ [final2]) ++ rest) c in
  fst (ReadRecord r) = Fail (ErrRecordTooLarge maxRecordSize) /\
  ReadRecord (snd (ReadRecord r)) =
  (Ok (payloads (init2 ++ [final2])), mkReader rest c).
Proof.
  intros Hinit [Hm Hlen] Hsz Hi2 Hw2 Ha2 Hl2 r. unfold r, ReadRecord, on_wire.
  rewrite ReadRecord_loop_leading by assumption.
  rewrite <- app_assoc.
  rewrite ReadRecord_loop_too_large by assumption.
  unfold frag_size in Hlen. rewrite Hlen, Nat2Z.id, skipn_exact.
  cbn [fst snd]. split; [reflexivity|].
  now rewrite ReadRecord_loop_record by assumption.
Qed.

Lemma X9_next_record_after_oversize_witness :
  leading [abc] /\ well_formed oversize /\ maxRecordSize <= frag_size oversize /\
  leading [] /\ well_formed hello /\ accepted hello /\ frag_last hello = true /\
  let r := mkReader (stream_of [abc] ++ on_wire oversize
                       ++ stream_of ([] ++ [hello]) ++ []) Closed in
  fst (ReadRecord r) = Fail (ErrRecordTooLarge maxRecordSize) /\
  ReadRecord (snd (ReadRecord r)) =
  (Ok (payloads ([] ++ [hello])), mkReader [] Closed).
Proof.
  assert (Hi1 : leading [abc]) by (repeat constructor; vm_compute; congruence).
  assert (Hwf : well_formed oversize)
    by (repeat split; vm_compute; congruence).
  assert (Hsz : maxRecordSize <= frag_size oversize)
    by (vm_compute; congruence).
  assert (Hi2 : leading []) by constructor.
  assert (Hw2 : well_formed hello)
    by (repeat constructor; vm_compute; congruence).
  assert (Ha2 : accepted hello) by (repeat constructor; vm_compute; congruence).
  assert (Hl2 : frag_last hello = true) by reflexivity.
  split; [exact Hi1|]. split; [exact Hwf|]. split; [exact Hsz|].
  split; [exact Hi2|]. split; [exact Hw2|]. split; [exact Ha2|].
  split; [exact Hl2|].
  exact (X9_next_record_after_oversize [abc] oversize [] hello [] Closed
           Hi1 Hwf Hsz Hi2 Hw2 Ha2 Hl2).
Defined.

(** ** Replies that do not fit, and replies in sequence *)

(** The loop on a fragment flagged as last. *)
Lemma ReadRecord_loop_final
  (f : Fragment) (rest buf : list byte) (c : ending) :
  well_formed f -> accepted f -> frag_last f = true ->
  ReadRecord_loop (mkReader (on_wire f ++ rest) c) buf =
  (Ok (buf ++ payload f), mkReader rest c).
Proof.
  intros Hwf Hacc Hlast. rewrite ReadRecord_loop_step.
  now rewrite ReadRecord_body_accepted, Hlast by assumption.
Qed.

(** The frame [WriteTCPReplyMessage] builds for a reply. *)
Lemma reply_frame_fragment (p : list byte) :
  1 <= Z.of_nat (length p) < maxRecordSize ->
  let f := mkFragment
             (NewRecordMarker (U32.of_int (Z.of_nat (length p))) true) p in
  well_formed f /\ accepted f /\ frag_last f = true.
Proof.
  intros Hlen. unfold maxRecordSize in Hlen. cbv zeta.
  unfold well_formed, accepted, frag_size, frag_last, maxRecordSize.
  cbn [marker payload].
  unfold U32.of_int, U32.modulus. rewrite Z.mod_small by lia.
  rewrite ParseRecordMarker_NewRecordMarker by lia. cbn [fst snd].
  split; [split; [|reflexivity] | split; [lia | reflexivity]].
  apply NewRecordMarker_in_range. unfold U32.in_range, U32.modulus. lia.
Qed.

(** A write of more bytes than the writer has room for. *)
Lemma Write_short (w : Writer) (p : list byte) (k : nat) :
  room w = Some k -> (k < length p)%nat ->
  Write w p =
  (Z.of_nat k, Some (ErrTransport (broken w)),
   mkWriter (sent w ++ firstn k p) (Some 0%nat) (broken w)).
Proof.
  intros Hroom Hk. unfold Write. rewrite Hroom.
  now replace (length p <=? k)%nat with false
    by (symmetry; apply Nat.leb_gt; lia).
Qed.

Lemma WriteTCPReplyMessage_short (w : Writer) (reply : list byte) (k : nat) :
  room w = Some k -> (k < 4 + length reply)%nat ->
  WriteTCPReplyMessage w reply =
  (Some (ErrTransport (broken w)),
   mkWriter
     (sent w ++
      firstn k
        (BigEndian_PutUint32
           (NewRecordMarker (U32.of_int (Z.of_nat (length reply))) true)
         ++ reply))
     (Some 0%nat) (broken w)).
Proof.
  intros Hroom Hk.
  set (m := NewRecordMarker (U32.of_int (Z.of_nat (length reply))) true).
  rewrite firstn_app, BigEndian_PutUint32_length.
  unfold WriteTCPReplyMessage.
  destruct (Nat.lt_ge_cases k 4) as [Hshort | H4].
  - unfold WriteRecordMarker, binary_Write. fold m.
    rewrite (Write_short w (BigEndian_PutUint32 m) k Hroom)
      by (rewrite BigEndian_PutUint32_length; lia).
    replace (k - 4)%nat with 0%nat by lia. cbn [firstn].
    now rewrite app_nil_r.
  - rewrite WriteRecordMarker_fits
      by (unfold has_room; rewrite Hroom; lia).
    fold m. unfold room_after. rewrite Hroom. cbn [option_map].
    rewrite (Write_short _ reply (k - 4)) by (cbn [room]; reflexivity || lia).
    cbn [sent broken].
    rewrite (firstn_all2 (BigEndian_PutUint32 m))
      by (rewrite BigEndian_PutUint32_length; lia).
    now rewrite <- app_assoc.
Qed.

(** X10. A reply that the writer has no room for: [WriteTCPReplyMessage]
    returns the error of the writer, and what reached the stream is the
    frame cut at the room that was left; when the marker itself does not
    fit, no byte of the payload is written. *)
Theorem X10_reply_cut_short (w : Writer) (reply : list byte) (k : nat) :
  room w = Some k -> (k < 4 + length reply)%nat ->
  WriteTCPReplyMessage w reply =
  (Some (ErrTransport (broken w)),
   mkWriter
     (sent w ++
      firstn k
        (BigEndian_PutUint32
           (NewRecordMarker (U32.of_int (Z.of_nat (length reply))) true)
         ++ reply))
     (Some 0%nat) (broken w)).
Proof.
  intros Hroom Hk. now apply WriteTCPReplyMessage_short.
Qed.

Lemma X10_reply_cut_short_witness :
  room tight_conn = Some 6%nat /\ (6 < 4 + length (payload hello))%nat /\
  WriteTCPReplyMessage tight_conn (payload hello) =
  (Some (ErrTransport "broken pipe"),
   mkWriter [x80; x00; x00; x05; "h"; "e"]%byte (Some 0%nat) "broken pipe").
Proof.
  assert (Hroom : room tight_conn = Some 6%nat) by reflexivity.
  assert (Hk : (6 < 4 + length (payload hello))%nat) by (cbn; lia).
  split; [exact Hroom|]. split; [exact Hk|].
  exact (X10_reply_cut_short tight_conn (payload hello) 6 Hroom Hk).
Defined.

(** X11. What a failed [WriteTCPReplyMessage] leaves on a stream is
    never read as a record: for a reply shorter than [2^31] bytes cut
    short by the writer, [ReadRecord] on the bytes written fails and
    uses them all up. *)
Theorem X11_cut_reply_not_a_record
  (k : nat) (msg : string) (reply : list byte) (c : ending) :
  (k < 4 + length reply)%nat -> Z.of_nat (length reply) < 2 ^ 31 ->
  exists e,
    ReadRecord
      (mkReader
         (sent (snd (WriteTCPReplyMessage (mkWriter [] (Some k) msg) reply)))
         c) =
    (Fail e, mkReader [] c).
Proof.
  intros Hk Hlen.
  rewrite (WriteTCPReplyMessage_short (mkWriter [] (Some k) msg) reply k
             eq_refl Hk).
  cbn [snd sent app].
  unfold U32.of_int, U32.modulus. rewrite Z.mod_small by lia.
  set (m := NewRecordMarker (Z.of_nat (length reply)) true).
  assert (Hm : U32.in_range m).
  { apply NewRecordMarker_in_range. unfold U32.in_range, U32.modulus. lia. }
  assert (Hsize : fst (ParseRecordMarker m) = Z.of_nat (length reply)).
  { unfold m. now rewrite ParseRecordMarker_NewRecordMarker by lia. }
  unfold ReadRecord. rewrite ReadRecord_loop_step.
  destruct (Nat.lt_ge_cases k 4) as [Hshort | H4].
  - unfold ReadRecord_body.
    rewrite ReadRecordMarker_short
      by (cbn [pending]; rewrite length_firstn; lia).
    eexists. reflexivity.
  - rewrite firstn_app, BigEndian_PutUint32_length.
    rewrite (firstn_all2 (BigEndian_PutUint32 m))
      by (rewrite BigEndian_PutUint32_length; lia).
    rewrite ReadRecord_body_marker by assumption. cbv zeta.
    rewrite Hsize.
    assert (Hcut : (length (firstn (k - 4) reply) < length reply)%nat)
      by (rewrite length_firstn; lia).
    destruct (Z.ltb_spec (Z.of_nat (length reply)) 1); [lia|].
    rewrite Z.geb_leb.
    destruct (Z.leb_spec maxRecordSize (Z.of_nat (length reply))).
    + unfold advance. cbn [pending closing].
      rewrite skipn_all2 by lia. eexists. reflexivity.
    + rewrite CopyN_short by lia. eexists. reflexivity.
Qed.

Lemma X11_cut_reply_not_a_record_witness :
  (6 < 4 + length (payload hello))%nat /\
  Z.of_nat (length (payload hello)) < 2 ^ 31 /\
  exists e,
    ReadRecord
      (mkReader
         (sent (snd (WriteTCPReplyMessage
                       (mkWriter [] (Some 6%nat) "broken pipe")
                       (payload hello))))
         Closed) =
    (Fail e, mkReader [] Closed).
Proof.
  assert (Hk : (6 < 4 + length (payload hello))%nat) by (cbn; lia).
  assert (Hlen : Z.of_nat (length (payload hello)) < 2 ^ 31) by (cbn; lia).
  split; [exact Hk|]. split; [exact Hlen|].
  exact (X11_cut_reply_not_a_record 6 "broken pipe" (payload hello) Closed
           Hk Hlen).
Defined.

(** X12. Two replies of 1 to [maxRecordSize - 1] bytes written one after
    the other into a buffer are read back by two calls of [ReadRecord],
    unchanged and in the order they were written. *)
Theorem X12_replies_in_sequence (p1 p2 : list byte) (c : ending) :
  1 <= Z.of_nat (length p1) < maxRecordSize ->
  1 <= Z.of_nat (length p2) < maxRecordSize ->
  let w1 := snd (WriteTCPReplyMessage empty_buffer p1) in
  let w2 := snd (WriteTCPReplyMessage w1 p2) in
  let r := mkReader (sent w2) c in
  fst (ReadRecord r) = Ok p1 /\
  ReadRecord (snd (ReadRecord r)) = (Ok p2, mkReader [] c).
Proof.
  intros H1 H2. cbv zeta.
  rewrite (WriteTCPReplyMessage_fits empty_buffer p1) by exact I.
  cbn [snd]. rewrite WriteTCPReplyMessage_fits by exact I.
  cbn [snd sent empty_buffer app].
  destruct (reply_frame_fragment p1 H1) as (Hw1 & Ha1 & Hl1).
  destruct (reply_frame_fragment p2 H2) as (Hw2 & Ha2 & Hl2).
  set (f1 := mkFragment
               (NewRecordMarker (U32.of_int (Z.of_nat (length p1))) true) p1) in *.
  set (f2 := mkFragment
               (NewRecordMarker (U32.of_int (Z.of_nat (length p2))) true) p2) in *.
  change (fst (ReadRecord (mkReader (on_wire f1 ++ on_wire f2) c)) = Ok p1 /\
          ReadRecord (snd (ReadRecord (mkReader (on_wire f1 ++ on_wire f2) c))) =
          (Ok p2, mkReader [] c)).
  assert (Hfirst : ReadRecord (mkReader (on_wire f1 ++ on_wire f2) c) =
                   (Ok p1, mkReader (on_wire f2) c)).
  { unfold ReadRecord. now rewrite ReadRecord_loop_final by assumption. }
  rewrite Hfirst. cbn [fst snd]. split; [reflexivity|].
  unfold ReadRecord. rewrite <- (app_nil_r (on_wire f2)).
  now rewrite ReadRecord_loop_final by assumption.
Qed.

Lemma X12_replies_in_sequence_witness :
  1 <= Z.of_nat (length (payload abc)) < maxRecordSize /\
  1 <= Z.of_nat (length (payload de)) < maxRecordSize /\
  let w1 := snd (WriteTCPReplyMessage empty_buffer (payload abc)) in
  let w2 := snd (WriteTCPReplyMessage w1 (payload de)) in
  let r := mkReader (sent w2) Closed in
  fst (ReadRecord r) = Ok (payload abc) /\
  ReadRecord (snd (ReadRecord r)) = (Ok (payload de), mkReader [] Closed).
Proof.
  assert (H1 : 1 <= Z.of_nat (length (payload abc)) < maxRecordSize)
    by (split; vm_compute; congruence).
  assert (H2 : 1 <= Z.of_nat (length (payload de)) < maxRecordSize)
    by (split; vm_compute; congruence).
  split; [exact H1|]. split; [exact H2|].
  exact (X12_replies_in_sequence (payload abc) (payload de) Closed H1 H2).
Defined.

(** ** The deprecated call writer *)

Section CallProperties.

Variable value : Type.
Variable Marshal : value -> list byte + string.
Variable NewProcedureCall : Z -> Z -> Z -> value.

Lemma WriteCall_as_reply
  (w : Writer) (program version proc : Z) (args : value)
  (header body : list byte) :
  Marshal (NewProcedureCall program version proc) = inl header ->
  Marshal args = inl body ->
  WriteCall Marshal NewProcedureCall false w program version proc args =
  (option_map ErrWrite (fst (WriteTCPReplyMessage w (header ++ body))),
   snd (WriteTCPReplyMessage w (header ++ body))).
Proof.
  intros Hh Hb. unfold WriteCall. rewrite Hh, Hb. cbn [negb app].
  unfold WriteTCPReplyMessage.
  destruct (WriteRecordMarker w _ true) as [[e|] w1]; [reflexivity|].
  destruct (Write w1 (header ++ body)) as [[n [e|]] w2]; reflexivity.
Qed.

(** X13. On a writer that is not a UDP connection, once the header and
    the arguments are marshalled, [WriteCall] does what
    [WriteTCPReplyMessage] does with the two encodings joined: the same
    bytes reach the stream and the same write error, if any, comes
    back. *)
Theorem X13_call_framed_as_reply
  (w : Writer) (program version proc : Z) (args : value)
  (header body : list byte) :
  Marshal (NewProcedureCall program version proc) = inl header ->
  Marshal args = inl body ->
  WriteCall Marshal NewProcedureCall false w program version proc args =
  (option_map ErrWrite (fst (WriteTCPReplyMessage w (header ++ body))),
   snd (WriteTCPReplyMessage w (header ++ body))).
Proof.
  intros Hh Hb. now apply WriteCall_as_reply.
Qed.

(** X14. A call of 1 to [maxRecordSize - 1] marshalled bytes written by
    [WriteCall] into a buffer, as for a TCP connection, is read back by
    [ReadRecord] as the encoding of the header followed by the encoding
    of the arguments. *)
Theorem X14_call_read_back
  (program version proc : Z) (args : value)
  (header body : list byte) (c : ending) :
  Marshal (NewProcedureCall program version proc) = inl header ->
  Marshal args = inl body ->
  1 <= Z.of_nat (length (header ++ body)) < maxRecordSize ->
  fst (WriteCall Marshal NewProcedureCall false empty_buffer
         program version proc args) = None /\
  ReadRecord
    (mkReader
       (sent (snd (WriteCall Marshal NewProcedureCall false empty_buffer
                     program version proc args))) c) =
  (Ok (header ++ body), mkReader [] c).
Proof.
  intros Hh Hb Hlen. unfold WriteCall. rewrite Hh, Hb. cbn [negb app].
  rewrite WriteRecordMarker_fits by exact I.
  rewrite Write_fits by exact I. cbn [fst snd sent empty_buffer app].
  split; [reflexivity|].
  destruct (reply_frame_fragment (header ++ body) Hlen) as (Hwf & Hacc & Hlast).
  unfold ReadRecord.
  rewrite <- (app_nil_r (_ ++ header ++ body)).
  apply (ReadRecord_loop_final _ [] [] c Hwf Hacc Hlast).
Qed.

(** X15. On a writer with room, the bytes [WriteCall] sends on a UDP
    connection are the two encodings and nothing else; on any other
    writer the same bytes come after the 4 bytes of a marker flagged as
    last that holds their number. *)
Theorem X15_call_marker_only_off_udp
  (w : Writer) (program version proc : Z) (args : value)
  (header body : list byte) :
  Marshal (NewProcedureCall program version proc) = inl header ->
  Marshal args = inl body ->
  has_room w (4 + length (header ++ body)) ->
  WriteCall Marshal NewProcedureCall true w program version proc args =
  (None,
   mkWriter (sent w ++ header ++ body)
     (room_after w (length (header ++ body))) (broken w)) /\
  WriteCall Marshal NewProcedureCall false w program version proc args =
  (None,
   mkWriter
     (sent w ++
      BigEndian_PutUint32
        (NewRecordMarker (U32.of_int (Z.of_nat (length (header ++ body)))) true)
      ++ header ++ body)
     (room_after w (4 + length (header ++ body))) (broken w)).
Proof.
  intros Hh Hb Hroom. split.
  - unfold WriteCall. rewrite Hh, Hb. cbn [negb app].
    rewrite Write_fits; [reflexivity|].
    unfold has_room in *. destruct (room w); [lia | exact I].
  - rewrite (WriteCall_as_reply w program version proc args
               header body Hh Hb).
    now rewrite WriteTCPReplyMessage_fits by assumption.
Qed.

(** X16. When [xdr.Marshal] fails, on the header or on the arguments,
    [WriteCall] returns that error and writes nothing, marker included,
    whatever the writer. *)
Theorem X16_marshal_error_writes_nothing
  (udp : bool) (w : Writer) (program version proc : Z) (args : value)
  (msg : string) :
  Marshal (NewProcedureCall program version proc) = inr msg \/
  (exists header,
     Marshal (NewProcedureCall program version proc) = inl header /\
     Marshal args = inr msg) ->
  WriteCall Marshal NewProcedureCall udp w program version proc args =
  (Some (ErrMarshal msg), w).
Proof.
  intros [Hh | (header & Hh & Hb)]; unfold WriteCall; rewrite Hh;
    [reflexivity | now rewrite Hb].
Qed.

End CallProperties.

Lemma X13_call_framed_as_reply_witness :
  sample_Marshal (sample_header 1 2 3) = inl [x01; x02; x03]%byte /\
  sample_Marshal (payload abc) = inl (payload abc) /\
  WriteCall sample_Marshal sample_header false tight_conn 1 2 3 (payload abc) =
  (option_map ErrWrite
     (fst (WriteTCPReplyMessage tight_conn ([x01; x02; x03]%byte ++ payload abc))),
   snd (WriteTCPReplyMessage tight_conn ([x01; x02; x03]%byte ++ payload abc))).
Proof.
  assert (Hh : sample_Marshal (sample_header 1 2 3) = inl [x01; x02; x03]%byte)
    by reflexivity.
  assert (Hb : sample_Marshal (payload abc) = inl (payload abc))
    by reflexivity.
  split; [exact Hh|]. split; [exact Hb|].
  exact (X13_call_framed_as_reply (list byte) sample_Marshal sample_header
           tight_conn 1 2 3 (payload abc) [x01; x02; x03]%byte (payload abc)
           Hh Hb).
Defined.

Lemma X14_call_read_back_witness :
  sample_Marshal (sample_header 1 2 3) = inl [x01; x02; x03]%byte /\
  sample_Marshal (payload abc) = inl (payload abc) /\
  1 <= Z.of_nat (length ([x01; x02; x03]%byte ++ payload abc)) < maxRecordSize /\
  fst (WriteCall sample_Marshal sample_header false empty_buffer 1 2 3
         (payload abc)) = None /\
  ReadRecord
    (mkReader
       (sent (snd (WriteCall sample_Marshal sample_header false empty_buffer
                     1 2 3 (payload abc)))) Closed) =
  (Ok ([x01; x02; x03]%byte ++ payload abc), mkReader [] Closed).
Proof.
  assert (Hh : sample_Marshal (sample_header 1 2 3) = inl [x01; x02; x03]%byte)
    by reflexivity.
  assert (Hb : sample_Marshal (payload abc) = inl (payload abc))
    by reflexivity.
  assert (Hlen : 1 <= Z.of_nat (length ([x01; x02; x03]%byte ++ payload abc))
                 < maxRecordSize)
    by (split; vm_compute; congruence).
  split; [exact Hh|]. split; [exact Hb|]. split; [exact Hlen|].
  exact (X14_call_read_back (list byte) sample_Marshal sample_header
           1 2 3 (payload abc) [x01; x02; x03]%byte (payload abc) Closed
           Hh Hb Hlen).
Defined.

Lemma X15_call_marker_only_off_udp_witness :
  sample_Marshal (sample_header 1 2 3) = inl [x01; x02; x03]%byte /\
  sample_Marshal (payload abc) = inl (payload abc) /\
  has_room empty_buffer (4 + length ([x01; x02; x03]%byte ++ payload abc)) /\
  WriteCall sample_Marshal sample_header true empty_buffer 1 2 3 (payload abc) =
  (None, mkWriter [x01; x02; x03; "a"; "b"; "c"]%byte None "") /\
  WriteCall sample_Marshal sample_header false empty_buffer 1 2 3 (payload abc) =
  (None,
   mkWriter [x80; x00; x00; x06; x01; x02; x03; "a"; "b"; "c"]%byte None "").
Proof.
  assert (Hh : sample_Marshal (sample_header 1 2 3) = inl [x01; x02; x03]%byte)
    by reflexivity.
  assert (Hb : sample_Marshal (payload abc) = inl (payload abc))
    by reflexivity.
  assert (Hroom : has_room empty_buffer
                    (4 + length ([x01; x02; x03]%byte ++ payload abc)))
    by exact I.
  split; [exact Hh|]. split; [exact Hb|]. split; [exact Hroom|].
  exact (X15_call_marker_only_off_udp (list byte) sample_Marshal sample_header
           empty_buffer 1 2 3 (payload abc) [x01; x02; x03]%byte (payload abc)
           Hh Hb Hroom).
Defined.

Lemma X16_marshal_error_writes_nothing_witness :
  (sample_Marshal (sample_header 1 2 3) = inr "xdr: nothing to encode"%string \/
   (exists header,
      sample_Marshal (sample_header 1 2 3) = inl header /\
      sample_Marshal [] = inr "xdr: nothing to encode"%string)) /\
  WriteCall sample_Marshal sample_header false tight_conn 1 2 3 [] =
  (Some (ErrMarshal "xdr: nothing to encode"), tight_conn).
Proof.
  assert (Hfail :
    sample_Marshal (sample_header 1 2 3) = inr "xdr: nothing to encode"%string \/
    (exists header,
       sample_Marshal (sample_header 1 2 3) = inl header /\
       sample_Marshal [] = inr "xdr: nothing to encode"%string)).
  { right. exists [x01; x02; x03]%byte. split; reflexivity. }
  split; [exact Hfail|].
  exact (X16_marshal_error_writes_nothing (list byte) sample_Marshal
           sample_header false tight_conn 1 2 3 [] "xdr: nothing to encode"
           Hfail).
Defined.

(** ** A drain that runs dry *)

(** X17. When the stream ends, or breaks, inside the payload of a
    fragment of [maxRecordSize] bytes or more, [ReadRecord] still fails
    with the too-large error: the error of the drain is dropped, and the
    reader is left with nothing. *)
Theorem X17_drain_error_dropped
  (init : list Fragment) (m : Z) (tail : list byte) (c : ending) :
  leading init ->
  U32.in_range m -> maxRecordSize <= fst (ParseRecordMarker m) ->
  Z.of_nat (length tail) < fst (ParseRecordMarker m) ->
  snd (fst (CopyN (mkReader tail c) (fst (ParseRecordMarker m)))) =
  Some (ending_error c) /\
  ReadRecord (mkReader (stream_of init ++ BigEndian_PutUint32 m ++ tail) c) =
  (Fail (ErrRecordTooLarge maxRecordSize), mkReader [] c).
Proof.
  intros Hinit Hm Hsz Hlen. split.
  - now rewrite CopyN_short by assumption.
  - apply ReadRecord_too_large_truncated; (assumption || lia).
Qed.

Lemma X17_drain_error_dropped_witness :
  leading [abc] /\
  U32.in_range (NewRecordMarker 40000 true) /\
  maxRecordSize <= fst (ParseRecordMarker (NewRecordMarker 40000 true)) /\
  Z.of_nat (length (payload hello))
    < fst (ParseRecordMarker (NewRecordMarker 40000 true)) /\
  snd (fst (CopyN (mkReader (payload hello) (Broken "reset"))
              (fst (ParseRecordMarker (NewRecordMarker 40000 true))))) =
  Some (ending_error (Broken "reset")) /\
  ReadRecord
    (mkReader (stream_of [abc]
                 ++ BigEndian_PutUint32 (NewRecordMarker 40000 true)
                 ++ payload hello) (Broken "reset")) =
  (Fail (ErrRecordTooLarge maxRecordSize), mkReader [] (Broken "reset")).
Proof.
  assert (Hinit : leading [abc])
    by (repeat constructor; vm_compute; congruence).
  assert (Hm : U32.in_range (NewRecordMarker 40000 true))
    by (split; vm_compute; congruence).
  assert (Hsz : maxRecordSize
                <= fst (ParseRecordMarker (NewRecordMarker 40000 true)))
    by (vm_compute; congruence).
  assert (Hlen : Z.of_nat (length (payload hello))
                 < fst (ParseRecordMarker (NewRecordMarker 40000 true)))
    by (vm_compute; reflexivity).
  split; [exact Hinit|]. split; [exact Hm|]. split; [exact Hsz|].
  split; [exact Hlen|].
  exact (X17_drain_error_dropped [abc] (NewRecordMarker 40000 true)
           (payload hello) (Broken "reset") Hinit Hm Hsz Hlen).
Defined.
